(** * Goldsource Model Helper: the vertex-overlap checker

    A shallow embedding of the two Blender operators of [__init__.py] that
    carry the add-on's algorithmic content,

      - [OBJECT_OT_check_vertex_overlaps.execute]  (the overlap analysis),
      - [OBJECT_OT_select_overlap_vertices.execute] (the face selection),

    together with the Python built-ins they call, and the properties of
    the overlap table and of the face selection proved about them.

    Conventions of the embedding.
      - A Python [str] is a Rocq [string], read as its UTF-8 bytes.  The
        byte-wise lexicographic order of UTF-8 text is the code-point
        order Python compares strings with.  White space and digits are
        the ASCII ones, so [strip] and [int] are those of Python on ASCII
        text; the texts the add-on parses are the ones it wrote, decimal
        numerals separated by commas, and a statement about other texts
        says that they are ASCII.
      - A Python [int] is a [Z]; a [float] is a binary64 [PrimFloat.float].
        The integers that occur are indices and sizes of a mesh, far
        below the length (4300 digits unless configured) at which CPython
        refuses to print or parse a numeral.
      - The insertion-ordered [dict] [overlaps_map] is an association list
        in insertion order; a Python [set] of ints is a [gset Z].
      - An operator returns its status set, the messages it passed to
        [self.report] and to [logger.warning], and the context it leaves
        behind; an uncaught Python exception is the status [RAISED].
      - The progress bar of the window manager only receives values, which
        nothing reads back; it is left out. *)

From Stdlib Require Import ZArith String Ascii List Floats.PrimFloat.
From Stdlib Require Import DecimalString DecimalZ DecimalPos.
From stdpp Require Import base decidable list sorting gmap strings.

Local Open Scope Z_scope.
Local Open Scope string_scope.

#[local] Set Warnings "-clear-no-such-hyp".

(** ** Python built-ins *)

Module Py.

(** *** Ordering of [str] *)

Definition str_le (a b : string) : Prop := String.leb a b = true.

Definition str_lt (a b : string) : Prop := String.ltb a b = true.

#[global] Instance str_le_dec : RelDecision str_le.
Proof. intros a b. unfold str_le. apply _. Defined.

#[global] Instance str_lt_dec : RelDecision str_lt.
Proof. intros a b. unfold str_lt. apply _. Defined.

(** *** [sorted] *)

(** [sorted(l)] on a list of [str]: the ascending rearrangement of [l],
    which on a total order with equal elements indistinguishable is the
    same list for every sorting algorithm. *)
Definition sorted_str (l : list string) : list string :=
  merge_sort str_le l.

(** [sorted(s)] on a set of [int]. *)
Definition sorted_int (s : gset Z) : list Z :=
  merge_sort Z.le (elements s).

(** *** [itertools.combinations(l, 2)]

    The pairs [(l[i], l[j])] with [i < j], in lexicographic order of
    the positions. *)
Fixpoint combinations2 {A : Type} (l : list A) : list (A * A) :=
  match l with
  | [] => []
  | x :: t => map (pair x) t ++ combinations2 t
  end.

(** *** [str(n)] for an [int] *)

Definition str (n : Z) : string :=
  NilZero.string_of_int (Z.to_int n).

(** *** [sep.join(parts)] *)

Fixpoint join (sep : string) (parts : list string) : string :=
  match parts with
  | [] => ""
  | [p] => p
  | p :: rest => p ++ sep ++ join sep rest
  end.

(** *** [s.split(",")] *)

Definition comma : ascii := ","%char.

Fixpoint split_comma (s : string) : list string :=
  match s with
  | EmptyString => [""]
  | String c s' =>
      if Ascii.eqb c comma then "" :: split_comma s'
      else match split_comma s' with
           | [] => [String c ""]
           | h :: t => String c h :: t
           end
  end.

(** *** [s.strip()]

    The characters [str.isspace] accepts below U+0080: TAB, LF, VT, FF,
    CR, the separators FS, GS, RS, US, and SPACE. *)
Definition isspace (c : ascii) : bool :=
  let n := N_of_ascii c in
  ((9 <=? n) && (n <=? 13) || (28 <=? n) && (n <=? 32))%N.

Fixpoint lstrip (s : string) : string :=
  match s with
  | EmptyString => ""
  | String c s' => if isspace c then lstrip s' else s
  end.

Fixpoint rstrip (s : string) : string :=
  match s with
  | EmptyString => ""
  | String c s' =>
      match rstrip s' with
      | EmptyString => if isspace c then "" else String c ""
      | r => String c r
      end
  end.

Definition strip (s : string) : string := rstrip (lstrip s).

(** Truth value of a [str]: non-empty. *)
Definition truthy (s : string) : bool :=
  match s with EmptyString => false | _ => true end.

(** *** [int(s)]

    Around the numeral [int] skips the white space of C: TAB, LF, VT, FF,
    CR and SPACE, and not the separators FS, GS, RS, US that [str.strip]
    removes.  The numeral is an optional sign, then decimal digits, where
    single underscores may separate digits.  [None] stands for
    [ValueError]. *)
Definition isspace_c (c : ascii) : bool :=
  let n := N_of_ascii c in
  ((9 <=? n) && (n <=? 13) || (n =? 32))%N.

Fixpoint lskip (s : string) : string :=
  match s with
  | EmptyString => ""
  | String c s' => if isspace_c c then lskip s' else s
  end.

Fixpoint rskip (s : string) : string :=
  match s with
  | EmptyString => ""
  | String c s' =>
      match rskip s' with
      | EmptyString => if isspace_c c then "" else String c ""
      | r => String c r
      end
  end.

Definition digit_of (c : ascii) : option (Decimal.uint -> Decimal.uint) :=
  match c with
  | "0"%char => Some Decimal.D0
  | "1"%char => Some Decimal.D1
  | "2"%char => Some Decimal.D2
  | "3"%char => Some Decimal.D3
  | "4"%char => Some Decimal.D4
  | "5"%char => Some Decimal.D5
  | "6"%char => Some Decimal.D6
  | "7"%char => Some Decimal.D7
  | "8"%char => Some Decimal.D8
  | "9"%char => Some Decimal.D9
  | _ => None
  end.

(** [digits after s]: the digits of [s]; [after] tells whether the
    previous character was a digit (so that an underscore, or the end of
    the text, may follow). *)
Fixpoint digits (after : bool) (s : string) : option Decimal.uint :=
  match s with
  | EmptyString => if after then Some Decimal.Nil else None
  | String c s' =>
      if Ascii.eqb c "_"%char then
        if after then digits false s' else None
      else
        match digit_of c with
        | Some d => d <$> digits true s'
        | None => None
        end
  end.

Definition int (s : string) : option Z :=
  match rskip (lskip s) with
  | EmptyString => None
  | String c s' =>
      if Ascii.eqb c "-"%char then
        (fun d => Z.of_int (Decimal.Neg d)) <$> digits false s'
      else if Ascii.eqb c "+"%char then
        (fun d => Z.of_int (Decimal.Pos d)) <$> digits false s'
      else
        (fun d => Z.of_int (Decimal.Pos d)) <$> digits false (String c s')
  end.

(** *** [s.endswith(n)] *)

Fixpoint endswith (s n : string) : bool :=
  String.eqb s n
  || match s with
     | EmptyString => false
     | String _ s' => endswith s' n
     end.

(** *** [s[:-k]] *)

Definition drop_last (k : nat) (s : string) : string :=
  if Nat.eqb k 0 then "" else String.substring 0 (String.length s - k) s.

End Py.

(** ** Classes of characters, used to describe what [str] prints *)

(** Characters that are neither white space nor the separator. *)
Definition clean (c : ascii) : bool :=
  negb (Py.isspace c) && negb (Ascii.eqb c Py.comma).

Definition is_digit (c : ascii) : bool :=
  match Py.digit_of c with Some _ => true | None => false end.

Fixpoint all_chars (P : ascii -> bool) (s : string) : bool :=
  match s with
  | EmptyString => true
  | String c s' => P c && all_chars P s'
  end.

(** ** Data model: the parts of the Blender scene the operators touch *)

(** [VertexGroupElement]: one membership of a vertex, [g.group] and
    [g.weight]. *)
Record VertexGroupElement := {
  group : nat;
  weight : float
}.

(** [MeshVertex]: [v.index] and [v.groups]. *)
Record MeshVertex := {
  v_index : Z;
  v_groups : list VertexGroupElement
}.

(** [BMFace]: the [index] of each vertex of [f.verts], in loop order, and
    the flags [f.select] and [f.hide].  A face is referred to by its
    position in [bm.faces]. *)
Record BMFace := {
  f_verts : list Z;
  f_select : bool;
  f_hide : bool
}.

(** The active object: [obj.type], [obj.mode], [obj.select_get()], the
    names of [obj.vertex_groups] by group index, [obj.data.vertices] and
    the faces of its edit mesh. *)
Record Object := {
  obj_type : string;
  obj_mode : string;
  obj_select : bool;
  vertex_groups : list string;
  vertices : list MeshVertex;
  faces : list BMFace
}.

(** [VertexOverlapItem], the property group stored in
    [scene.vertex_overlap_list]. *)
Record VertexOverlapItem := {
  groups : string;
  count : Z;
  verts : string;
  selected : bool
}.

(** The context an operator runs in. *)
Record Context := {
  active_object : option Object;
  vertex_overlap_list : list VertexOverlapItem;
  mesh_select_mode : bool * bool * bool
}.

Inductive Level := ERROR | WARNING | INFO.

Inductive Status := CANCELLED | FINISHED | RAISED.

(** What a run of an operator leaves behind: the context, the returned
    status, the [self.report] calls and the [logger.warning] calls. *)
Record Outcome := {
  context : Context;
  status : Status;
  reports : list (Level * string);
  log : list string
}.

#[global] Instance Level_eq_dec : EqDecision Level.
Proof. solve_decision. Defined.

#[global] Instance Status_eq_dec : EqDecision Status.
Proof. solve_decision. Defined.

#[global] Instance VertexOverlapItem_eq_dec : EqDecision VertexOverlapItem.
Proof. solve_decision. Defined.

Definition set_overlap_list (l : list VertexOverlapItem) (ctx : Context) : Context :=
  {| active_object := active_object ctx;
     vertex_overlap_list := l;
     mesh_select_mode := mesh_select_mode ctx |}.

(** ** [validate_active_object(context, required_type)]

    Both operators call it with [require_selected] left at its default
    [False], so the test on [context.selected_objects] never runs. *)

Definition lower_ascii (c : ascii) : ascii :=
  let n := N_of_ascii c in
  if ((65 <=? n) && (n <=? 90))%N then ascii_of_N (n + 32) else c.

Fixpoint lower (s : string) : string :=
  match s with
  | EmptyString => ""
  | String c s' => String (lower_ascii c) (lower s')
  end.

Definition validate_active_object (ctx : Context) (required_type : string)
  : Object + string :=
  match active_object ctx with
  | None => inr "No active object selected"
  | Some obj =>
      if bool_decide (obj_type obj ≠ required_type) then
        inr ("Active object must be a " ++ lower required_type
             ++ ", not " ++ lower (obj_type obj))
      else inl obj
  end.

(** ** [OBJECT_OT_check_vertex_overlaps] *)

(** [overlaps_map]: keys in insertion order. *)
Abbreviation overlaps := (list ((string * string) * gset Z)).

(** [g.weight > 0.0] *)
Definition positive (g : VertexGroupElement) : Prop :=
  PrimFloat.ltb 0 (weight g) = true.

#[global] Instance positive_dec g : Decision (positive g).
Proof. unfold positive. apply _. Defined.

(** [[vertex_groups[g.group].name for g in v.groups if g.weight > 0.0]];
    [None] when a group index is out of range ([IndexError]). *)
Definition active_names (vgs : list string) (v : MeshVertex) : option (list string) :=
  mapM (fun g => vgs !! group g) (filter positive (v_groups v)).

(** [if key not in overlaps_map: overlaps_map[key] = set()] followed by
    [overlaps_map[key].add(i)]. *)
Fixpoint add_overlap (key : string * string) (i : Z) (m : overlaps) : overlaps :=
  match m with
  | [] => [(key, {[ i ]})]
  | (k, s) :: m' =>
      if decide (k = key) then (k, s ∪ {[ i ]}) :: m'
      else (k, s) :: add_overlap key i m'
  end.

(** The pairs one vertex contributes:
    [itertools.combinations(sorted(groups), 2)]. *)
Definition vertex_pairs (names : list string) : list (string * string) :=
  Py.combinations2 (Py.sorted_str names).

(** The body of the loop over the vertices, after [groups] is computed. *)
Definition accumulate (names : list string) (i : Z) (m : overlaps) : overlaps :=
  if bool_decide (1 < length names)%nat then
    foldl (fun m key => add_overlap key i m) m (vertex_pairs names)
  else m.

(** [for i, v in enumerate(obj.data.vertices): ...] *)
Fixpoint scan (vgs : list string) (vs : list MeshVertex) (m : overlaps)
  : option overlaps :=
  match vs with
  | [] => Some m
  | v :: vs' =>
      match active_names vgs v with
      | None => None
      | Some names => scan vgs vs' (accumulate names (v_index v) m)
      end
  end.

(** One [scene.vertex_overlap_list.add()] with its four assignments. *)
Definition make_item (entry : (string * string) * gset Z) : VertexOverlapItem :=
  let '((g1, g2), vs) := entry in
  let unique_verts := Py.sorted_int vs in
  {| groups := g1 ++ " + " ++ g2;
     count := Z.of_nat (length unique_verts);
     verts := Py.join "," (map Py.str unique_verts);
     selected := false |}.

Definition check_vertex_overlaps (ctx : Context) : Outcome :=
  match validate_active_object ctx "MESH" with
  | inr error =>
      {| context := ctx; status := CANCELLED;
         reports := [(ERROR, error)]; log := [] |}
  | inl obj =>
      match vertex_groups obj with
      | [] =>
          {| context := ctx; status := CANCELLED;
             reports := [(WARNING, "No vertex groups found on this mesh")];
             log := [] |}
      | _ =>
          match scan (vertex_groups obj) (vertices obj) [] with
          | None =>
              {| context := set_overlap_list [] ctx; status := RAISED;
                 reports := []; log := [] |}
          | Some overlaps_map =>
              let items := map make_item overlaps_map in
              {| context := set_overlap_list items ctx; status := FINISHED;
                 reports :=
                   [(INFO,
                     if bool_decide (length items = 0%nat)
                     then "No overlapping vertex weights found"
                     else "Found " ++ Py.str (Z.of_nat (length items))
                          ++ " overlap pairs")];
                 log := [] |}
          end
      end
  end.

(** ** [OBJECT_OT_select_overlap_vertices] *)

(** [[int(i) for i in item.verts.split(",") if i.strip()]];
    [None] when some [int(i)] raises [ValueError]. *)
Definition item_indices (vs : string) : option (list Z) :=
  mapM Py.int (filter (fun i => Py.truthy (Py.strip i) = true) (Py.split_comma vs)).

(** State of the loop over [overlap_list]. *)
Record Collected := {
  indices : gset Z;
  selected_count : Z;
  warnings : list string
}.

Definition collect_item (acc : Collected) (item : VertexOverlapItem) : Collected :=
  if selected item then
    let n := selected_count acc + 1 in
    if Py.truthy (Py.strip (verts item)) then
      match item_indices (verts item) with
      | Some item_indices =>
          {| indices := indices acc ∪ list_to_set item_indices;
             selected_count := n; warnings := warnings acc |}
      | None =>
          {| indices := indices acc; selected_count := n;
             warnings := warnings acc
               ++ ["Invalid vertex indices in item: " ++ groups item] |}
      end
    else {| indices := indices acc; selected_count := n; warnings := warnings acc |}
  else acc.

Definition collect (overlap_list : list VertexOverlapItem) : Collected :=
  foldl collect_item {| indices := ∅; selected_count := 0; warnings := [] |}
        overlap_list.

(** [any(v.index in indices for v in f.verts)] *)
Definition touches (ixs : gset Z) (f : BMFace) : bool :=
  existsb (fun v => bool_decide (v ∈ ixs)) (f_verts f).

Definition set_select (b : bool) (f : BMFace) : BMFace :=
  {| f_verts := f_verts f; f_select := b; f_hide := f_hide f |}.

(** [bpy.ops.mesh.reveal(select=False)] *)
Definition reveal (f : BMFace) : BMFace :=
  {| f_verts := f_verts f; f_select := f_select f; f_hide := false |}.

(** The second loop over [bm.faces]; returns the faces and
    [selected_faces]. *)
Fixpoint select_touching (ixs : gset Z) (fs : list BMFace) : list BMFace * Z :=
  match fs with
  | [] => ([], 0)
  | f :: fs' =>
      let '(r, n) := select_touching ixs fs' in
      if touches ixs f then (set_select true f :: r, n + 1) else (f :: r, n)
  end.

Definition msg_no_overlaps : string :=
  "No overlaps found. Run 'Check Vertex Overlaps' first".

Definition msg_nothing_selected : string :=
  "No overlap items selected. Check the boxes next to the items you want to select".

Definition msg_no_vertices : string :=
  "No vertices found in selected overlap items".

Definition select_overlap_vertices (ctx : Context) : Outcome :=
  match validate_active_object ctx "MESH" with
  | inr error =>
      {| context := ctx; status := CANCELLED;
         reports := [(ERROR, error)]; log := [] |}
  | inl obj =>
      match vertex_overlap_list ctx with
      | [] =>
          {| context := ctx; status := CANCELLED;
             reports := [(WARNING, msg_no_overlaps)]; log := [] |}
      | overlap_list =>
          let c := collect overlap_list in
          if bool_decide (selected_count c = 0) then
            {| context := ctx; status := CANCELLED;
               reports := [(WARNING, msg_nothing_selected)];
               log := warnings c |}
          else if bool_decide (indices c = ∅) then
            {| context := ctx; status := CANCELLED;
               reports := [(WARNING, msg_no_vertices)];
               log := warnings c |}
          else
            let deselected := set_select false <$> (reveal <$> faces obj) in
            let '(fs, selected_faces) := select_touching (indices c) deselected in
            let obj' :=
              {| obj_type := obj_type obj;
                 obj_mode := "EDIT";
                 obj_select := true;
                 vertex_groups := vertex_groups obj;
                 vertices := vertices obj;
                 faces := fs |} in
            {| context :=
                 {| active_object := Some obj';
                    vertex_overlap_list := overlap_list;
                    mesh_select_mode := (false, false, true) |};
               status := FINISHED;
               reports :=
                 [(INFO,
                   "Selected " ++ Py.str selected_faces ++ " faces from "
                   ++ Py.str (Z.of_nat (size (indices c))) ++ " vertices ("
                   ++ Py.str (selected_count c) ++ " overlap groups)")];
               log := warnings c |}
      end
  end.

(** ** Vocabulary of the statements *)

(** The index [z] is in the set stored under [k]. *)
Definition member (m : overlaps) (k : string * string) (z : Z) : Prop :=
  exists s, (k, s) ∈ m /\ z ∈ s.

(** Some vertex of [vs] with index [z] has [k] among its pairs. *)
Definition contributes (vgs : list string) (vs : list MeshVertex)
    (k : string * string) (z : Z) : Prop :=
  exists v names,
    v ∈ vs /\ active_names vgs v = Some names
    /\ k ∈ vertex_pairs names /\ v_index v = z.

(** The two names of an unordered pair, in ascending order. *)
Definition canonical (a b : string) : string * string :=
  if decide (Py.str_le a b) then (a, b) else (b, a).

(** Two keys that name the same unordered pair. *)
Definition same_pair (k1 k2 : string * string) : Prop :=
  k1 = k2 \/ k1 = (k2.2, k2.1).

(** Every group index used with a positive weight exists on the object. *)
Definition valid_groups (obj : Object) : Prop :=
  Forall (fun v => Forall (fun g => positive g ->
                             (group g < length (vertex_groups obj))%nat)
                          (v_groups v))
         (vertices obj).

(** The indices the selection reads from one entry: those of its [verts]
    text, none when the text is blank or does not parse. *)
Definition decoded (item : VertexOverlapItem) : gset Z :=
  if Py.truthy (Py.strip (verts item)) then
    match item_indices (verts item) with
    | Some l => list_to_set l
    | None => ∅
    end
  else ∅.

(** The text [make_item] stores for a sequence of indices. *)
Definition render (vs : list Z) : string := Py.join "," (map Py.str vs).

(** The union of the index sets [sets] of the ticked entries. *)
Definition chosen_union (entries : list VertexOverlapItem) (sets : list (list Z))
  : gset Z :=
  ⋃ (zip_with (fun it vs => if selected it then list_to_set vs else ∅)
              entries sets).

(** ** The scenario of the specification, run through both operators *)

Module Scenario.

Definition w (g : nat) (x : float) : VertexGroupElement :=
  {| group := g; weight := x |}.

Definition face (vs : list Z) : BMFace :=
  {| f_verts := vs; f_select := false; f_hide := false |}.

#[warnings="-inexact-float"] Definition v0 : MeshVertex :=
  {| v_index := 0; v_groups := [w 0 0.6; w 1 0.4] |}.

Definition v1 : MeshVertex :=
  {| v_index := 1; v_groups := [w 0 1.0] |}.

#[warnings="-inexact-float"] Definition v2 : MeshVertex :=
  {| v_index := 2; v_groups := [w 1 0.3; w 2 0.2] |}.

Definition v3 : MeshVertex :=
  {| v_index := 3; v_groups := [] |}.

Definition mesh : Object :=
  {| obj_type := "MESH"; obj_mode := "OBJECT"; obj_select := false;
     vertex_groups := ["Hip"; "Spine"; "Tail"];
     vertices := [v0; v1; v2; v3];
     faces := [face [0; 1; 2]; face [1; 2; 3]] |}.

Definition ctx : Context :=
  {| active_object := Some mesh; vertex_overlap_list := [];
     mesh_select_mode := (true, false, false) |}.

Definition table : list VertexOverlapItem :=
  [ {| groups := "Hip + Spine"; count := 1; verts := "0"; selected := false |};
    {| groups := "Spine + Tail"; count := 1; verts := "2"; selected := false |} ].

Definition tick (i : nat) (l : list VertexOverlapItem) : list VertexOverlapItem :=
  imap (fun j it => if bool_decide (j = i)
                    then {| groups := groups it; count := count it;
                            verts := verts it; selected := true |}
                    else it) l.

(** The scene after the analysis, with the first entry ticked. *)
Definition ticked : Context :=
  set_overlap_list (tick 0 table) ctx.

(** The scene after the analysis, with no entry ticked. *)
Definition unticked : Context :=
  set_overlap_list table ctx.

End Scenario.

(** ** Further meshes used as concrete inputs *)

(** A mesh without vertex groups, in a scene that still holds the table
    of an earlier analysis. *)
Module NoGroups.

Definition mesh : Object :=
  {| obj_type := "MESH"; obj_mode := "OBJECT"; obj_select := false;
     vertex_groups := [];
     vertices := [ {| v_index := 0; v_groups := [] |} ];
     faces := [Scenario.face [0; 0; 0]] |}.

Definition ctx : Context :=
  {| active_object := Some mesh; vertex_overlap_list := Scenario.table;
     mesh_select_mode := (true, false, false) |}.

End NoGroups.

(** A mesh on which the group indices 0 and 1 carry the same name. *)
Module SharedName.

Definition vertex : MeshVertex :=
  {| v_index := 0;
     v_groups := [Scenario.w 0 1; Scenario.w 1 0.5; Scenario.w 2 0.25] |}.

Definition mesh : Object :=
  {| obj_type := "MESH"; obj_mode := "OBJECT"; obj_select := false;
     vertex_groups := ["Arm"; "Arm"; "Leg"];
     vertices := [vertex];
     faces := [] |}.

Definition ctx : Context :=
  {| active_object := Some mesh; vertex_overlap_list := [];
     mesh_select_mode := (true, false, false) |}.

End SharedName.

(** ** Valve and Gearbox limb names: [_swap_by_suffix] *)

Definition limb_suffix_map : list (string * string) :=
  [ ("L Leg", "L Thigh");
    ("L Leg1", "L Calf");
    ("R Leg", "R Thigh");
    ("R Leg1", "R Calf");
    ("L Arm", "L Clavicle");
    ("L Arm1", "L UpperArm");
    ("L Arm2", "L Forearm");
    ("R Arm", "R Clavicle");
    ("R Arm1", "R UpperArm");
    ("R Arm2", "R Forearm") ].

(** [{v: k for k, v in limb_suffix_map.items()}]: the values of
    [limb_suffix_map] are pairwise different, so no key is written twice
    and the order of the items is kept. *)
Definition reverse_suffix_map : list (string * string) :=
  (fun kv => (kv.2, kv.1)) <$> limb_suffix_map.

(** One of the two loops of [_swap_by_suffix] over the items of a map:
    the value it returns at the first suffix that fits, [None] when the
    loop runs to its end. *)
Definition swap_in (table : list (string * string)) (name : string)
  : option string :=
  match find (fun sm => Py.endswith name (" " ++ sm.1)) table with
  | Some (suf, mapped) =>
      let needle := " " ++ suf in
      let prefix := Py.drop_last (String.length needle) name in
      Some (prefix ++ " " ++ mapped)
  | None => None
  end.

Definition _swap_by_suffix (name : string) : string :=
  match swap_in limb_suffix_map name with
  | Some r => r
  | None =>
      match swap_in reverse_suffix_map name with
      | Some r => r
      | None => name
      end
  end.

(** What is known of [(p + a).endswith(b)] from [a] and [b] alone. *)
Definition endswith_known (a b : string) : option bool :=
  if (String.length b <=? String.length a)%nat then Some (Py.endswith a b)
  else if Py.endswith b a then None else Some false.

(** The item a loop of [_swap_by_suffix] stops at on every name that
    ends with [a], when [a] alone decides it. *)
Fixpoint first_match (table : list (string * string)) (a : string)
  : option (option (string * string)) :=
  match table with
  | [] => Some None
  | sm :: rest =>
      match endswith_known a (" " ++ sm.1) with
      | Some true => Some (Some sm)
      | Some false => first_match rest a
      | None => None
      end
  end.

(** ** [OBJECT_OT_select_all_overlaps] and [OBJECT_OT_deselect_all_overlaps] *)

Definition set_selected (b : bool) (item : VertexOverlapItem) : VertexOverlapItem :=
  {| groups := groups item; count := count item; verts := verts item;
     selected := b |}.

Definition select_all_overlaps (ctx : Context) : Outcome :=
  {| context :=
       set_overlap_list (set_selected true <$> vertex_overlap_list ctx) ctx;
     status := FINISHED;
     reports :=
       [(INFO, "Selected all "
               ++ Py.str (Z.of_nat (length (vertex_overlap_list ctx)))
               ++ " overlap items")];
     log := [] |}.

Definition deselect_all_overlaps (ctx : Context) : Outcome :=
  {| context :=
       set_overlap_list (set_selected false <$> vertex_overlap_list ctx) ctx;
     status := FINISHED;
     reports := [(INFO, "Deselected all overlap items")];
     log := [] |}.

(** ** [OBJECT_OT_remove_unused_vertex_groups]: the groups it finds unused

    The loop over [obj.vertex_groups] of one object, with its two inner
    loops and their [break]s; [unused_groups] holds the [index] of each
    group the operator then hands to [obj.vertex_groups.remove]. *)

(** [for g in v.groups: if g.group == vg_index and g.weight > 0.0: ...] *)
Definition uses (vg_index : nat) (v : MeshVertex) : bool :=
  existsb (fun g => Nat.eqb (group g) vg_index && PrimFloat.ltb 0 (weight g))
          (v_groups v).

Definition unused_groups (obj : Object) : list nat :=
  filter (fun vg_index => existsb (uses vg_index) (vertices obj) = false)
         (seq 0 (length (vertex_groups obj))).

(** ** Further vocabulary *)

(** The vertex [v] has at least two memberships of positive weight. *)
Definition overlapping (v : MeshVertex) : Prop :=
  (2 <= length (filter positive (v_groups v)))%nat.

#[global] Instance overlapping_dec v : Decision (overlapping v).
Proof. unfold overlapping. apply _. Defined.

(** The pairs [(a, b)] of elements of [l] at positions [i <= j]. *)
Fixpoint pairs_upto {A : Type} (l : list A) : list (A * A) :=
  match l with
  | [] => []
  | x :: t => (pair x <$> (x :: t)) ++ pairs_upto t
  end.

(** Every entry of [m] is found in [m'] at its position, under its key,
    with a set that holds at least the same indices. *)
Definition grows (m m' : overlaps) : Prop :=
  forall i k s, m !! i = Some (k, s) ->
    exists s', m' !! i = Some (k, s') /\ s ⊆ s'.

(** A mesh with a membership in a group it does not have. *)
Module MissingGroup.

Definition mesh : Object :=
  {| obj_type := "MESH"; obj_mode := "OBJECT"; obj_select := false;
     vertex_groups := ["Hip"];
     vertices := [ {| v_index := 0; v_groups := [Scenario.w 3 1] |} ];
     faces := [] |}.

Definition ctx : Context :=
  {| active_object := Some mesh; vertex_overlap_list := Scenario.table;
     mesh_select_mode := (true, false, false) |}.

End MissingGroup.

(** The mesh of the scenario cut down to its first vertex. *)
Module FirstVertex.

Definition mesh : Object :=
  {| obj_type := "MESH"; obj_mode := "OBJECT"; obj_select := false;
     vertex_groups := ["Hip"; "Spine"; "Tail"];
     vertices := [Scenario.v0];
     faces := [Scenario.face [0; 1; 2]; Scenario.face [1; 2; 3]] |}.

Definition ctx : Context :=
  {| active_object := Some mesh; vertex_overlap_list := [];
     mesh_select_mode := (true, false, false) |}.

End FirstVertex.

(** A mesh with a group that is assigned, but only with weight zero. *)
Module ZeroWeight.

Definition mesh : Object :=
  {| obj_type := "MESH"; obj_mode := "OBJECT"; obj_select := false;
     vertex_groups := ["Hip"; "Spine"; "Tail"];
     vertices :=
       [ {| v_index := 0; v_groups := [Scenario.w 0 1; Scenario.w 1 0] |};
         {| v_index := 1; v_groups := [Scenario.w 0 0.5] |} ];
     faces := [] |}.

End ZeroWeight.

(** A scene whose only entry is ticked and holds a text that is not a
    list of integers, although it starts with one. *)
Module Unreadable.

Definition ctx : Context :=
  set_overlap_list
    [ {| groups := "Hip + Spine"; count := 1; verts := "0,x";
         selected := true |} ]
    Scenario.ctx.

End Unreadable.

(** A vertex with weight in all three groups of the scenario, listed out
    of order. *)
Module ThreeGroups.

Definition vertex : MeshVertex :=
  {| v_index := 0;
     v_groups := [Scenario.w 2 0.25; Scenario.w 0 0.5; Scenario.w 1 0.25] |}.

End ThreeGroups.

(** A mesh of eleven vertices in which the vertices 0, 9 and 10 have
    weight in two groups. *)
Module Spread.

Definition one (i : Z) : MeshVertex :=
  {| v_index := i; v_groups := [Scenario.w 0 1] |}.

Definition two (i : Z) : MeshVertex :=
  {| v_index := i; v_groups := [Scenario.w 0 0.5; Scenario.w 1 0.5] |}.

Definition mesh : Object :=
  {| obj_type := "MESH"; obj_mode := "OBJECT"; obj_select := false;
     vertex_groups := ["Hip"; "Spine"; "Tail"];
     vertices :=
       [two 0; one 1; one 2; one 3; one 4; one 5; one 6; one 7; one 8;
        two 9; two 10];
     faces := [Scenario.face [0; 1; 2]; Scenario.face [8; 9; 10]] |}.

Definition ctx : Context :=
  {| active_object := Some mesh; vertex_overlap_list := [];
     mesh_select_mode := (true, false, false) |}.

End Spread.

(** A text of ASCII characters, short enough that no numeral in it
    reaches the length at which CPython refuses to parse it.  On such a
    text [Py.strip], [Py.split_comma] and [Py.int] compute what Python's
    [str.strip], [str.split] and [int] do. *)
Definition plain_text (s : string) : Prop :=
  all_chars (fun c => (N_of_ascii c <? 128)%N) s = true
  /\ (String.length s <= 4300)%nat.

(** The scene of the scenario with two ticked entries; the text of the
    first is the separator FS (byte 28) followed by the numeral 1. *)
Module Separator.

Definition ctx : Context :=
  set_overlap_list
    [ {| groups := "Hip + Spine"; count := 1;
         verts := String (ascii_of_nat 28) "1"; selected := true |};
      {| groups := "Spine + Tail"; count := 1; verts := "2";
         selected := true |} ]
    Scenario.ctx.

End Separator.

(** ** Facts about the built-ins *)

Section StrOrder.

Lemma ascii_compare_refl (c : ascii) : Ascii.compare c c = Eq.
Proof. unfold Ascii.compare. apply N.compare_refl. Qed.

Lemma ascii_compare_lt_trans (a b c : ascii) :
  Ascii.compare a b = Lt -> Ascii.compare b c = Lt -> Ascii.compare a c = Lt.
Proof.
  unfold Ascii.compare. rewrite !N.compare_lt_iff. apply N.lt_trans.
Qed.

Lemma str_compare_refl (s : string) : String.compare s s = Eq.
Proof.
  induction s as [|c s IH]; simpl; [reflexivity|].
  now rewrite ascii_compare_refl.
Qed.

Lemma str_compare_lt_trans (a b c : string) :
  String.compare a b = Lt -> String.compare b c = Lt -> String.compare a c = Lt.
Proof.
  revert b c. induction a as [|x a IH]; intros [|y b] [|z c]; simpl; try congruence.
  destruct (Ascii.compare x y) eqn:Hxy; try discriminate.
  - apply Ascii.compare_eq_iff in Hxy. subst y.
    destruct (Ascii.compare x z); try congruence. apply IH.
  - intros _. destruct (Ascii.compare y z) eqn:Hyz; try discriminate.
    + apply Ascii.compare_eq_iff in Hyz. subst z. now rewrite Hxy.
    + intros _. now rewrite (ascii_compare_lt_trans x y z).
Qed.

Lemma str_le_iff (a b : string) : Py.str_le a b <-> Py.str_lt a b \/ a = b.
Proof.
  unfold Py.str_le, Py.str_lt, String.leb, String.ltb.
  destruct (String.compare a b) eqn:Hc; split; intros H; auto; try discriminate.
  - right. now apply String.compare_eq_iff.
  - destruct H as [H|H]; [discriminate|]. subst. rewrite str_compare_refl in Hc.
    discriminate.
Qed.

Lemma str_lt_irrefl (a : string) : ~ Py.str_lt a a.
Proof.
  unfold Py.str_lt, String.ltb. rewrite str_compare_refl. discriminate.
Qed.

Lemma str_lt_trans (a b c : string) :
  Py.str_lt a b -> Py.str_lt b c -> Py.str_lt a c.
Proof.
  unfold Py.str_lt, String.ltb. intros Hab Hbc.
  destruct (String.compare a b) eqn:H1; try discriminate.
  destruct (String.compare b c) eqn:H2; try discriminate.
  now rewrite (str_compare_lt_trans a b c).
Qed.

Lemma str_lt_asym (a b : string) : Py.str_lt a b -> ~ Py.str_lt b a.
Proof. intros H1 H2. exact (str_lt_irrefl a (str_lt_trans _ _ _ H1 H2)). Qed.

#[global] Instance str_le_refl : Reflexive Py.str_le.
Proof. intros a. apply str_le_iff. now right. Qed.

#[global] Instance str_le_trans : Transitive Py.str_le.
Proof.
  intros a b c. rewrite !str_le_iff. intros [H1 | ->] [H2 | ->]; auto.
  left. eapply str_lt_trans; eauto.
Qed.

#[global] Instance str_le_total : Total Py.str_le.
Proof. intros a b. apply String.leb_total. Qed.

#[global] Instance str_le_antisym : AntiSymm (=) Py.str_le.
Proof. intros a b. apply String.leb_antisym. Qed.

End StrOrder.

Section Combinations.
Context {A : Type}.
Implicit Types (l : list A) (a b : A).

Lemma elem_of_combinations2_cons a b x l :
  (a, b) ∈ Py.combinations2 (x :: l)
  <-> (a = x /\ b ∈ l) \/ (a, b) ∈ Py.combinations2 l.
Proof.
  simpl. rewrite elem_of_app, list_elem_of_fmap. split.
  - intros [(y & Heq & Hy) | H]; [left | now right].
    inversion Heq; subst. auto.
  - intros [[-> Hb] | H]; [left | now right]. eauto.
Qed.

Lemma combinations2_elem_of a b l :
  (a, b) ∈ Py.combinations2 l -> a ∈ l /\ b ∈ l.
Proof.
  induction l as [|x l IH]; [now rewrite elem_of_nil|].
  rewrite elem_of_combinations2_cons, !elem_of_cons.
  intros [[-> Hb] | H]; [auto|]. destruct (IH H). auto.
Qed.

Lemma combinations2_either a b l :
  a ∈ l -> b ∈ l -> a ≠ b ->
  (a, b) ∈ Py.combinations2 l \/ (b, a) ∈ Py.combinations2 l.
Proof.
  induction l as [|x l IH]; [now rewrite elem_of_nil|].
  rewrite !elem_of_cons, !elem_of_combinations2_cons.
  intros [-> | Ha] [-> | Hb] Hne; tauto.
Qed.

(** [combinations] pairs positions: the earlier one first. *)
Lemma elem_of_combinations2_lookup a b l :
  (a, b) ∈ Py.combinations2 l
  <-> exists i j, (i < j)%nat /\ l !! i = Some a /\ l !! j = Some b.
Proof.
  induction l as [|x l IH].
  - rewrite elem_of_nil. split; [tauto|]. intros (i & j & _ & Hi & _).
    discriminate.
  - rewrite elem_of_combinations2_cons, IH. split.
    + intros [[-> [j Hj]%list_elem_of_lookup] | (i & j & Hlt & Hi & Hj)].
      * exists 0%nat, (S j). repeat split; [lia|exact Hj].
      * exists (S i), (S j). repeat split; [lia|exact Hi|exact Hj].
    + intros (i & j & Hlt & Hi & Hj).
      destruct j as [|j]; [lia|]. destruct i as [|i]; simpl in Hi, Hj.
      * left. inversion Hi; subst. split; [reflexivity|].
        apply list_elem_of_lookup. eauto.
      * right. exists i, j. repeat split; [lia|exact Hi|exact Hj].
Qed.

Lemma combinations2_sorted (R : relation A) a b l :
  StronglySorted R l -> (a, b) ∈ Py.combinations2 l -> R a b.
Proof.
  induction 1 as [|x l Hs IH Hx]; [now rewrite elem_of_nil|].
  rewrite elem_of_combinations2_cons. intros [[-> Hb] | H]; [|auto].
  rewrite Forall_forall in Hx. auto.
Qed.

Lemma combinations2_NoDup l : NoDup l -> NoDup (Py.combinations2 l).
Proof.
  induction 1 as [|x l Hx Hl IH]; simpl; [constructor|].
  apply NoDup_app. split; [|split]; [| |exact IH].
  - apply NoDup_fmap_2; [|exact Hl]. intros y z Heq. now inversion Heq.
  - intros [a b] (y & Heq & Hy)%list_elem_of_fmap Hin. inversion Heq; subst.
    apply combinations2_elem_of in Hin. tauto.
Qed.

Lemma combinations2_short l : (length l < 2)%nat -> Py.combinations2 l = [].
Proof. destruct l as [|x [|y l]]; simpl; auto; lia. Qed.

Section Count.
Context `{EqDecision A}.

Lemma count_pair_fmap (x a b : A) (l : list A) :
  length (filter (fun k => k = (a, b)) (map (pair x) l))
  = if decide (x = a) then length (filter (fun y => y = b) l) else 0%nat.
Proof.
  induction l as [|y l IH]; [now destruct (decide (x = a))|].
  cbn [map]. rewrite !filter_cons.
  destruct (decide ((x, y) = (a, b))) as [Heq|Hne]; cbn [length]; rewrite IH.
  - inversion Heq; subst. now rewrite !decide_True.
  - destruct (decide (x = a)) as [->|Hx]; [|reflexivity].
    rewrite decide_False; [reflexivity|]. intros ->. now apply Hne.
Qed.

(** How often [combinations] yields a pair of two different values, in
    one order or the other: once for each choice of an occurrence of
    either. *)
Lemma combinations2_count (a b : A) (l : list A) :
  a <> b ->
  (length (filter (fun k => k = (a, b)) (Py.combinations2 l))
   + length (filter (fun k => k = (b, a)) (Py.combinations2 l))
   = length (filter (fun y => y = a) l) * length (filter (fun y => y = b) l))%nat.
Proof.
  intros Hab. induction l as [|x l IH]; [reflexivity|].
  cbn [Py.combinations2]. rewrite !filter_app, !length_app, !count_pair_fmap.
  rewrite !filter_cons.
  destruct (decide (x = a)) as [Hxa|Hxa], (decide (x = b)) as [Hxb|Hxb];
    try congruence; cbn [length]; nia.
Qed.

Lemma count_two_positions (a : A) (l : list A) (p q : nat) :
  l !! p = Some a -> l !! q = Some a -> p <> q ->
  (2 <= length (filter (fun y => y = a) l))%nat.
Proof.
  assert (Hlt : forall l p q, (p < q)%nat -> l !! p = Some a -> l !! q = Some a ->
                  (2 <= length (filter (fun y => y = a) l))%nat).
  { clear l p q. induction l as [|x l IH]; intros p q Hpq Hp Hq; [discriminate|].
    destruct q as [|q]; [lia|]. rewrite filter_cons.
    destruct p as [|p]; simpl in Hp, Hq.
    - inversion Hp; subst x. rewrite decide_True by reflexivity. cbn [length].
      assert (Hin : a ∈ filter (fun y => y = a) l).
      { apply list_elem_of_filter. split; [reflexivity|].
        eapply list_elem_of_lookup_2, Hq. }
      destruct (filter (fun y => y = a) l); [now apply elem_of_nil in Hin|].
      cbn [length]. lia.
    - assert (IH' := IH p q ltac:(lia) Hp Hq).
      destruct (decide (x = a)); cbn [length]; lia. }
  intros Hp Hq Hne. destruct (decide (p < q)%nat).
  - eapply Hlt; eauto.
  - apply (Hlt l q p); auto. lia.
Qed.

End Count.

End Combinations.

Section Sorted.

Lemma sorted_str_perm (l : list string) : Py.sorted_str l ≡ₚ l.
Proof. apply merge_sort_Permutation. Qed.

Lemma sorted_str_elem_of (l : list string) (a : string) :
  a ∈ Py.sorted_str l <-> a ∈ l.
Proof. now rewrite sorted_str_perm. Qed.

Lemma sorted_str_sorted (l : list string) :
  StronglySorted Py.str_le (Py.sorted_str l).
Proof. apply StronglySorted_merge_sort; apply _. Qed.

Lemma sorted_str_NoDup (l : list string) : NoDup l -> NoDup (Py.sorted_str l).
Proof. now rewrite sorted_str_perm. Qed.

(** Python's [sorted] is any stable sort; on strings the ascending
    rearrangement is unique, so every sort returns this list. *)
Lemma sorted_str_unique (l l' : list string) :
  l' ≡ₚ l -> StronglySorted Py.str_le l' -> l' = Py.sorted_str l.
Proof.
  intros Hp Hs. apply (StronglySorted_unique Py.str_le); auto.
  - apply sorted_str_sorted.
  - now rewrite sorted_str_perm.
Qed.

Lemma sorted_int_elem_of (s : gset Z) (z : Z) : z ∈ Py.sorted_int s <-> z ∈ s.
Proof.
  unfold Py.sorted_int. now rewrite merge_sort_Permutation, elem_of_elements.
Qed.

Lemma sorted_int_NoDup (s : gset Z) : NoDup (Py.sorted_int s).
Proof.
  unfold Py.sorted_int. rewrite merge_sort_Permutation. apply NoDup_elements.
Qed.

Lemma sorted_int_length (s : gset Z) : length (Py.sorted_int s) = size s.
Proof.
  unfold Py.sorted_int. now rewrite merge_sort_Permutation.
Qed.

Lemma StronglySorted_strict (l : list Z) :
  StronglySorted Z.le l -> NoDup l -> StronglySorted Z.lt l.
Proof.
  induction 1 as [|x l Hs IH Hx]; intros Hnd; constructor.
  - apply IH. now apply NoDup_cons_1_2 in Hnd.
  - apply NoDup_cons_1_1 in Hnd. rewrite Forall_forall in *.
    intros y Hy. specialize (Hx y Hy).
    assert (x ≠ y) by (intros ->; contradiction). lia.
Qed.

Lemma sorted_int_ascending (s : gset Z) : StronglySorted Z.lt (Py.sorted_int s).
Proof.
  apply StronglySorted_strict; [|apply sorted_int_NoDup].
  apply StronglySorted_merge_sort; apply _.
Qed.

Lemma sorted_int_nil (s : gset Z) : Py.sorted_int s = [] <-> s = ∅.
Proof.
  split.
  - intros H. apply set_eq. intros z.
    rewrite <- sorted_int_elem_of, H. set_solver.
  - intros ->. reflexivity.
Qed.

End Sorted.

Section Text.

Lemma all_chars_impl (P Q : ascii -> bool) (s : string) :
  (forall c, P c = true -> Q c = true) ->
  all_chars P s = true -> all_chars Q s = true.
Proof.
  intros HPQ. induction s as [|c s IH]; simpl; [auto|].
  rewrite !andb_true_iff. intros [H1 H2]. auto.
Qed.

Lemma is_digit_clean (c : ascii) : is_digit c = true -> clean c = true.
Proof.
  destruct c as [[|] [|] [|] [|] [|] [|] [|] [|]]; vm_compute; congruence.
Qed.

Lemma is_digit_not_sign (c : ascii) :
  is_digit c = true ->
  Ascii.eqb c "-"%char = false /\ Ascii.eqb c "+"%char = false
  /\ Ascii.eqb c "_"%char = false.
Proof.
  destruct c as [[|] [|] [|] [|] [|] [|] [|] [|]]; vm_compute;
    intuition congruence.
Qed.

Lemma uint_digits (d : Decimal.uint) :
  all_chars is_digit (NilEmpty.string_of_uint d) = true.
Proof. induction d; simpl; auto. Qed.

Lemma digits_of_uint (d : Decimal.uint) :
  Py.digits true (NilEmpty.string_of_uint d) = Some d.
Proof. induction d; simpl; [reflexivity|..]; now rewrite IHd. Qed.

Lemma digits_of_uint_nonnil (d : Decimal.uint) :
  d <> Decimal.Nil -> Py.digits false (NilEmpty.string_of_uint d) = Some d.
Proof.
  destruct d; [congruence|..]; intros _; simpl; now rewrite digits_of_uint.
Qed.

Lemma lstrip_clean (s : string) : all_chars clean s = true -> Py.lstrip s = s.
Proof.
  destruct s as [|c s]; simpl; [auto|]. unfold clean.
  rewrite !andb_true_iff, !negb_true_iff. now intros [[-> _] _].
Qed.

Lemma rstrip_clean (s : string) : all_chars clean s = true -> Py.rstrip s = s.
Proof.
  induction s as [|c s IH]; simpl; [auto|]. unfold clean at 1.
  rewrite !andb_true_iff, !negb_true_iff. intros [[Hc _] Hs].
  rewrite (IH Hs), Hc. now destruct s.
Qed.

Lemma isspace_c_isspace (c : ascii) : Py.isspace_c c = true -> Py.isspace c = true.
Proof.
  unfold Py.isspace_c, Py.isspace.
  rewrite !orb_true_iff, !andb_true_iff, !N.leb_le, N.eqb_eq. lia.
Qed.

Lemma clean_not_isspace_c (c : ascii) : clean c = true -> Py.isspace_c c = false.
Proof.
  unfold clean. rewrite andb_true_iff, !negb_true_iff. intros [Hc _].
  destruct (Py.isspace_c c) eqn:E; [|reflexivity].
  apply isspace_c_isspace in E. congruence.
Qed.

Lemma lskip_clean (s : string) : all_chars clean s = true -> Py.lskip s = s.
Proof.
  destruct s as [|c s]; simpl; [auto|].
  rewrite andb_true_iff. intros [Hc _]. now rewrite (clean_not_isspace_c c Hc).
Qed.

Lemma rskip_clean (s : string) : all_chars clean s = true -> Py.rskip s = s.
Proof.
  induction s as [|c s IH]; simpl; [auto|].
  rewrite andb_true_iff. intros [Hc Hs].
  rewrite (IH Hs), (clean_not_isspace_c c Hc). now destruct s.
Qed.

Lemma strip_clean (s : string) : all_chars clean s = true -> Py.strip s = s.
Proof.
  intros H. unfold Py.strip. now rewrite (lstrip_clean s H), rstrip_clean.
Qed.

Lemma split_comma_clean (s : string) :
  all_chars clean s = true -> Py.split_comma s = [s].
Proof.
  induction s as [|c s IH]; simpl; [auto|]. unfold clean at 1.
  rewrite !andb_true_iff, !negb_true_iff. intros [[_ Hc] Hs].
  now rewrite Hc, (IH Hs).
Qed.

Lemma split_comma_app (s t : string) :
  all_chars clean s = true ->
  Py.split_comma (s ++ String Py.comma t) = s :: Py.split_comma t.
Proof.
  induction s as [|c s IH]; simpl; [auto|]. unfold clean at 1.
  rewrite !andb_true_iff, !negb_true_iff. intros [[_ Hc] Hs].
  now rewrite Hc, (IH Hs).
Qed.

(** [str(n)] is a non-empty text of digits after an optional minus sign. *)
Lemma str_clean (z : Z) : all_chars clean (Py.str z) = true.
Proof.
  assert (Hu : forall d, all_chars clean (NilZero.string_of_uint d) = true).
  { intros d. destruct d; try reflexivity;
      apply (all_chars_impl is_digit clean _ is_digit_clean (uint_digits _)). }
  unfold Py.str. destruct z as [|p|p]; simpl; auto.
Qed.

Lemma str_nonempty (z : Z) : Py.truthy (Py.str z) = true.
Proof.
  assert (Hu : forall d, Py.truthy (NilZero.string_of_uint d) = true)
    by (intros d; now destruct d).
  unfold Py.str. destruct z; simpl; auto.
Qed.

(** [int(str(n)) == n] *)
Lemma int_str (z : Z) : Py.int (Py.str z) = Some z.
Proof.
  unfold Py.int.
  rewrite (lskip_clean _ (str_clean z)), (rskip_clean _ (str_clean z)).
  unfold Py.str. destruct z as [|p|p]; [reflexivity|..]; simpl.
  - pose proof (Unsigned.to_uint_nonnil p) as Hn.
    pose proof (uint_digits (Pos.to_uint p)) as Hd.
    pose proof (digits_of_uint_nonnil _ Hn) as Hp.
    pose proof (DecimalZ.of_to (Z.pos p)) as Hz. simpl in Hz.
    unfold NilZero.string_of_uint.
    destruct (Pos.to_uint p) eqn:E; [congruence|..];
      simpl in Hd, Hp |- *; rewrite Hp; simpl; now rewrite Hz.
  - pose proof (Unsigned.to_uint_nonnil p) as Hn.
    pose proof (digits_of_uint_nonnil _ Hn) as Hp.
    pose proof (DecimalZ.of_to (Z.neg p)) as Hz. simpl in Hz.
    unfold NilZero.string_of_uint.
    destruct (Pos.to_uint p) eqn:E; [congruence|..];
      rewrite Hp; simpl; now rewrite Hz.
Qed.

Lemma join_cons (sep p : string) (q : string) (rest : list string) :
  Py.join sep (p :: q :: rest) = p ++ sep ++ Py.join sep (q :: rest).
Proof. reflexivity. Qed.

(** [",".join(map(str, l)).split(",")] gives back [map(str, l)]. *)
Lemma split_join_str (l : list Z) :
  l <> [] -> Py.split_comma (Py.join "," (map Py.str l)) = map Py.str l.
Proof.
  induction l as [|x [|y l] IH]; intros Hne; [congruence| |].
  - simpl. apply split_comma_clean, str_clean.
  - change (map Py.str (x :: y :: l)) with (Py.str x :: map Py.str (y :: l)).
    change (Py.str x :: map Py.str (y :: l))
      with (Py.str x :: Py.str y :: map Py.str l) at 1.
    rewrite join_cons.
    change ("," ++ Py.join "," (Py.str y :: map Py.str l))
      with (String Py.comma (Py.join "," (map Py.str (y :: l)))).
    rewrite split_comma_app by apply str_clean.
    now rewrite IH.
Qed.

Lemma join_str_truthy (l : list Z) :
  Py.truthy (Py.strip (Py.join "," (map Py.str l))) = bool_decide (l <> []).
Proof.
  destruct l as [|x l]; [reflexivity|].
  rewrite bool_decide_eq_true_2 by congruence.
  assert (H : exists c s, Py.lstrip (Py.join "," (map Py.str (x :: l))) = String c s
                          /\ Py.isspace c = false).
  { pose proof (str_clean x) as Hc. pose proof (str_nonempty x) as Ht.
    destruct l as [|y l]; simpl map.
    - simpl. destruct (Py.str x) as [|c s]; [discriminate|].
      exists c, s. rewrite lstrip_clean by auto. split; [auto|].
      simpl in Hc. unfold clean in Hc.
      rewrite !andb_true_iff, !negb_true_iff in Hc. tauto.
    - rewrite join_cons. destruct (Py.str x) as [|c s]; [discriminate|].
      simpl in Hc. unfold clean in Hc.
      rewrite !andb_true_iff, !negb_true_iff in Hc.
      destruct Hc as [[Hc _] _]. simpl. rewrite Hc. eauto. }
  destruct H as (c & s & Hl & Hc). unfold Py.strip. rewrite Hl. simpl.
  destruct (Py.rstrip s); [now rewrite Hc|reflexivity].
Qed.

End Text.

Section Decode.

Lemma item_indices_render (vs : list Z) : item_indices (render vs) = Some vs.
Proof.
  unfold item_indices, render. destruct vs as [|x vs]; [reflexivity|].
  rewrite split_join_str by congruence.
  assert (Hall : filter (fun i => Py.truthy (Py.strip i) = true)
                   (map Py.str (x :: vs)) = map Py.str (x :: vs)).
  { generalize (x :: vs). intros l. induction l as [|y l IH]; [reflexivity|].
    simpl map. rewrite filter_cons, IH.
    rewrite (strip_clean _ (str_clean y)), str_nonempty.
    now destruct (decide _). }
  rewrite Hall. apply mapM_fmap_Some, int_str.
Qed.

Lemma make_item_verts (k : string * string) (s : gset Z) :
  verts (make_item (k, s)) = render (Py.sorted_int s).
Proof. now destruct k. Qed.

Lemma make_item_count (k : string * string) (s : gset Z) :
  count (make_item (k, s)) = Z.of_nat (size s).
Proof. destruct k. simpl. now rewrite sorted_int_length. Qed.

Lemma make_item_groups (g1 g2 : string) (s : gset Z) :
  groups (make_item ((g1, g2), s)) = g1 ++ " + " ++ g2.
Proof. reflexivity. Qed.

Lemma make_item_selected (e : (string * string) * gset Z) :
  selected (make_item e) = false.
Proof. now destruct e as [[? ?] ?]. Qed.

End Decode.

Section Accumulation.

Implicit Types (m : overlaps) (k : string * string) (z i : Z).

Lemma add_overlap_keys k i m :
  (add_overlap k i m).*1 = if decide (k ∈ m.*1) then m.*1 else (m.*1 ++ [k])%list.
Proof.
  induction m as [|[k0 s0] m IH]; [reflexivity|].
  cbn [add_overlap].
  destruct (decide (k0 = k)) as [->|Hne]; rewrite !fmap_cons; cbn [fst].
  - rewrite decide_True by set_solver. reflexivity.
  - rewrite IH. destruct (decide (k ∈ m.*1)).
    + rewrite decide_True by set_solver. reflexivity.
    + rewrite decide_False; [reflexivity|]. rewrite elem_of_cons. naive_solver.
Qed.

Lemma add_overlap_NoDup k i m : NoDup m.*1 -> NoDup (add_overlap k i m).*1.
Proof.
  intros Hnd. rewrite add_overlap_keys. destruct (decide _); [exact Hnd|].
  apply NoDup_app. split; [exact Hnd|]. split; [|apply NoDup_singleton].
  intros x Hx ->%list_elem_of_singleton. contradiction.
Qed.

Lemma add_overlap_member k i m k' z :
  member (add_overlap k i m) k' z <-> member m k' z \/ (k' = k /\ z = i).
Proof.
  unfold member. induction m as [|[k0 s0] m IH]; simpl.
  - setoid_rewrite list_elem_of_singleton. setoid_rewrite elem_of_nil.
    split.
    + intros (s & Heq & Hz). inversion Heq; subst. set_solver.
    + intros [(s & [] & _) | [-> ->]]. exists {[ i ]}. set_solver.
  - destruct (decide (k0 = k)) as [->|Hne].
    + setoid_rewrite elem_of_cons. split.
      * intros (s & [Heq | Hin] & Hz).
        -- inversion Heq; subst. apply elem_of_union in Hz as [Hz | Hz].
           ++ left. eauto.
           ++ right. set_solver.
        -- left. eauto.
      * intros [(s & [Heq | Hin] & Hz) | [-> ->]].
        -- inversion Heq; subst. exists (s0 ∪ {[ i ]}). set_solver.
        -- eauto.
        -- exists (s0 ∪ {[ i ]}). set_solver.
    + setoid_rewrite elem_of_cons. split.
      * intros (s & [Heq | Hin] & Hz).
        -- left. eauto.
        -- destruct (proj1 IH) as [(s' & Hs' & Hz') | Hr]; eauto.
      * intros [(s & [Heq | Hin] & Hz) | Hr].
        -- eauto.
        -- destruct (proj2 IH) as (s' & Hs' & Hz'); eauto.
        -- destruct (proj2 IH) as (s' & Hs' & Hz'); eauto.
Qed.

Lemma add_overlap_nonempty k i m :
  Forall (fun e => e.2 ≠ ∅) m -> Forall (fun e => e.2 ≠ ∅) (add_overlap k i m).
Proof.
  induction 1 as [|[k0 s0] m H0 Hm IH]; simpl.
  - constructor; [|constructor]. simpl. set_solver.
  - destruct (decide (k0 = k)); constructor; auto. simpl. set_solver.
Qed.

(** The guard [len(groups) > 1] only skips vertices that have no pair. *)
Lemma accumulate_fold (names : list string) i m :
  accumulate names i m
  = foldl (fun m key => add_overlap key i m) m (vertex_pairs names).
Proof.
  unfold accumulate. case_bool_decide as Hlen; [reflexivity|].
  unfold vertex_pairs. rewrite combinations2_short; [reflexivity|].
  rewrite (Permutation_length (sorted_str_perm names)). lia.
Qed.

Lemma fold_add_NoDup (ks : list (string * string)) i m :
  NoDup m.*1 -> NoDup (foldl (fun m key => add_overlap key i m) m ks).*1.
Proof.
  revert m. induction ks as [|k ks IH]; intros m Hnd; simpl; [exact Hnd|].
  apply IH, add_overlap_NoDup, Hnd.
Qed.

Lemma fold_add_nonempty (ks : list (string * string)) i m :
  Forall (fun e => e.2 ≠ ∅) m ->
  Forall (fun e => e.2 ≠ ∅) (foldl (fun m key => add_overlap key i m) m ks).
Proof.
  revert m. induction ks as [|k ks IH]; intros m Hm; simpl; [exact Hm|].
  apply IH, add_overlap_nonempty, Hm.
Qed.

Lemma fold_add_member (ks : list (string * string)) i m k z :
  member (foldl (fun m key => add_overlap key i m) m ks) k z
  <-> member m k z \/ (k ∈ ks /\ z = i).
Proof.
  revert m. induction ks as [|k0 ks IH]; intros m; simpl.
  - rewrite elem_of_nil. tauto.
  - rewrite IH, add_overlap_member, elem_of_cons. tauto.
Qed.

Lemma contributes_nil vgs k z : ~ contributes vgs [] k z.
Proof. intros (v & names & Hv & _). now apply elem_of_nil in Hv. Qed.

Lemma contributes_cons vgs v vs names k z :
  active_names vgs v = Some names ->
  contributes vgs (v :: vs) k z
  <-> (k ∈ vertex_pairs names /\ z = v_index v) \/ contributes vgs vs k z.
Proof.
  intros Hn. unfold contributes. split.
  - intros (v' & names' & [-> | Hin]%elem_of_cons & Ha & Hk & Hz).
    + left. rewrite Hn in Ha. inversion Ha; subst. auto.
    + right. eauto 10.
  - intros [[Hk ->] | (v' & names' & Hin & Ha & Hk & Hz)].
    + exists v, names. rewrite elem_of_cons. auto.
    + exists v', names'. rewrite elem_of_cons. auto.
Qed.

(** What the loop over the vertices leaves in [overlaps_map]. *)
Lemma scan_spec vgs vs m m' :
  scan vgs vs m = Some m' ->
  (NoDup m.*1 -> NoDup m'.*1)
  /\ (Forall (fun e => e.2 ≠ ∅) m -> Forall (fun e => e.2 ≠ ∅) m')
  /\ (forall k z, member m' k z <-> member m k z \/ contributes vgs vs k z).
Proof.
  revert m. induction vs as [|v vs IH]; intros m; simpl.
  - intros [= <-]. split; [auto|]. split; [auto|]. intros k z. split.
    + intros H. now left.
    + intros [H | H]; [exact H|]. now apply contributes_nil in H.
  - destruct (active_names vgs v) as [names|] eqn:Hn; [|discriminate].
    intros Hs. destruct (IH _ Hs) as (H1 & H2 & H3).
    rewrite accumulate_fold in H1, H2, H3. split; [|split].
    + intros Hnd. apply H1, fold_add_NoDup, Hnd.
    + intros Hne. apply H2, fold_add_nonempty, Hne.
    + intros k z.
      rewrite H3, fold_add_member, (contributes_cons _ _ _ _ _ _ Hn). tauto.
Qed.

Lemma member_nil k z : ~ member [] k z.
Proof. intros (s & Hs & _). now apply elem_of_nil in Hs. Qed.

Lemma scan_table vgs vs m :
  scan vgs vs [] = Some m ->
  NoDup m.*1
  /\ Forall (fun e => e.2 ≠ ∅) m
  /\ (forall k z, member m k z <-> contributes vgs vs k z).
Proof.
  intros Hs. destruct (scan_spec _ _ _ _ Hs) as (H1 & H2 & H3).
  split; [apply H1; constructor|]. split; [apply H2; constructor|].
  intros k z. rewrite H3. split; [|auto].
  intros [H | H]; [now apply member_nil in H|exact H].
Qed.

(** With distinct keys, the set stored under a key is exactly its members. *)
Lemma member_unique m k s z :
  NoDup m.*1 -> (k, s) ∈ m -> (member m k z <-> z ∈ s).
Proof.
  intros Hnd Hin. split; [|intros Hz; exists s; auto].
  intros (s' & Hin' & Hz).
  apply list_elem_of_lookup in Hin as [i Hi], Hin' as [j Hj].
  assert (i = j) as ->.
  { apply (NoDup_lookup _ i j k Hnd); rewrite list_lookup_fmap.
    - now rewrite Hi.
    - now rewrite Hj. }
  rewrite Hi in Hj. now inversion Hj; subst.
Qed.

(** The loop fails only on a group index that is out of range. *)
Lemma active_names_valid vgs v :
  Forall (fun g => positive g -> (group g < length vgs)%nat) (v_groups v) ->
  is_Some (active_names vgs v).
Proof.
  intros Hv. unfold active_names. apply mapM_is_Some, Forall_forall.
  intros g [Hp Hg]%list_elem_of_filter. simpl.
  apply lookup_lt_is_Some. rewrite Forall_forall in Hv. auto.
Qed.

Lemma active_names_valid_inv vgs v names :
  active_names vgs v = Some names ->
  Forall (fun g => positive g -> (group g < length vgs)%nat) (v_groups v).
Proof.
  intros Hn. apply Forall_forall. intros g Hg Hp.
  assert (Hs : is_Some (active_names vgs v)) by (rewrite Hn; eauto).
  apply mapM_is_Some in Hs. rewrite Forall_forall in Hs.
  apply lookup_lt_is_Some, (Hs g). apply list_elem_of_filter. auto.
Qed.

Lemma scan_total vgs vs m :
  is_Some (scan vgs vs m)
  <-> Forall (fun v => Forall (fun g => positive g ->
                                 (group g < length vgs)%nat) (v_groups v)) vs.
Proof.
  revert m. induction vs as [|v vs IH]; intros m; simpl.
  - split; [constructor | eauto].
  - rewrite Forall_cons. split.
    + destruct (active_names vgs v) as [names|] eqn:Hn.
      * intros Hs. split; [eapply active_names_valid_inv; eauto|].
        eapply IH; eauto.
      * intros [? [=]].
    + intros [Hv Hvs]. destruct (active_names_valid vgs v Hv) as [names ->].
      now apply IH.
Qed.

End Accumulation.

Section CheckOperator.

Lemma validate_inl ctx t obj :
  validate_active_object ctx t = inl obj
  <-> active_object ctx = Some obj /\ obj_type obj = t.
Proof.
  unfold validate_active_object. destruct (active_object ctx) as [o|].
  - case_bool_decide as Ht.
    + split; [discriminate|]. intros [[= ->] Hty]. contradiction.
    + split.
      * intros [= ->]. auto.
      * intros [[= ->] _]. reflexivity.
  - split; [discriminate|]. intros [[=] _].
Qed.

(** A finished analysis stored the rendering of the scanned table. *)
Lemma check_finished ctx :
  status (check_vertex_overlaps ctx) = FINISHED ->
  exists obj m,
    active_object ctx = Some obj /\ obj_type obj = "MESH"
    /\ vertex_groups obj <> []
    /\ scan (vertex_groups obj) (vertices obj) [] = Some m
    /\ vertex_overlap_list (context (check_vertex_overlaps ctx)) = make_item <$> m.
Proof.
  unfold check_vertex_overlaps.
  destruct (validate_active_object ctx "MESH") as [obj|e] eqn:Hv; [|discriminate].
  apply validate_inl in Hv as [Ha Ht].
  destruct (vertex_groups obj) as [|g gs] eqn:Hg; [discriminate|].
  destruct (scan (g :: gs) (vertices obj) []) as [m|] eqn:Hs; [|discriminate].
  intros _. exists obj, m. rewrite Hg. repeat split; auto.
Qed.

(** The analysis finishes exactly on a mesh that has vertex groups and
    whose positive memberships name existing groups. *)
Lemma check_finished_iff ctx :
  status (check_vertex_overlaps ctx) = FINISHED
  <-> exists obj, active_object ctx = Some obj /\ obj_type obj = "MESH"
                  /\ vertex_groups obj <> [] /\ valid_groups obj.
Proof.
  split.
  - intros (obj & m & Ha & Ht & Hg & Hs & _)%check_finished.
    exists obj. repeat split; auto. apply (scan_total _ _ []). eauto.
  - intros (obj & Ha & Ht & Hg & Hv). unfold check_vertex_overlaps.
    rewrite (proj2 (validate_inl ctx "MESH" obj) (conj Ha Ht)).
    destruct (vertex_groups obj) as [|g gs] eqn:Hgs; [congruence|].
    unfold valid_groups in Hv. rewrite Hgs in Hv.
    apply (scan_total _ _ []) in Hv as [m ->]. reflexivity.
Qed.

(** The table behind a finished analysis: distinct keys, non-empty sets,
    and membership decided by the vertices of the mesh. *)
Lemma check_table ctx obj :
  active_object ctx = Some obj ->
  status (check_vertex_overlaps ctx) = FINISHED ->
  exists m,
    scan (vertex_groups obj) (vertices obj) [] = Some m
    /\ vertex_overlap_list (context (check_vertex_overlaps ctx)) = make_item <$> m
    /\ NoDup m.*1
    /\ (forall k s, (k, s) ∈ m ->
          s ≠ ∅ /\ forall z, z ∈ s <->
                     contributes (vertex_groups obj) (vertices obj) k z).
Proof.
  intros Ha (obj' & m & Ha' & _ & _ & Hs & Hl)%check_finished.
  rewrite Ha in Ha'. inversion Ha'; subst obj'. exists m.
  destruct (scan_table _ _ _ Hs) as (Hnd & Hne & Hmem).
  repeat split; auto.
  - rewrite Forall_forall in Hne. apply (Hne (k, s)). assumption.
  - intros Hz. apply Hmem. exists s. auto.
  - intros Hc. apply Hmem in Hc. now apply (member_unique m k s z Hnd).
Qed.

Lemma vertex_pairs_sorted (names : list string) (a b : string) :
  (a, b) ∈ vertex_pairs names -> Py.str_le a b.
Proof. apply combinations2_sorted, sorted_str_sorted. Qed.

Lemma vertex_pairs_elem_of (names : list string) (a b : string) :
  (a, b) ∈ vertex_pairs names -> a ∈ names /\ b ∈ names.
Proof.
  intros H%combinations2_elem_of. now rewrite !sorted_str_elem_of in H.
Qed.

Lemma canonical_sym (a b : string) : canonical a b = canonical b a.
Proof.
  unfold canonical. destruct (decide (Py.str_le a b)) as [Hab|Hab],
    (decide (Py.str_le b a)) as [Hba|Hba]; auto.
  - now rewrite (anti_symm Py.str_le a b Hab Hba).
  - destruct (total Py.str_le a b); contradiction.
Qed.

Lemma canonical_of_le (a b : string) : Py.str_le a b -> canonical a b = (a, b).
Proof. intros H. unfold canonical. now rewrite decide_True. Qed.

(** Two distinct active names of a vertex are paired once, in order. *)
Lemma vertex_pairs_canonical (names : list string) (a b : string) :
  a ∈ names -> b ∈ names -> a <> b -> canonical a b ∈ vertex_pairs names.
Proof.
  intros Ha Hb Hne.
  destruct (combinations2_either a b (Py.sorted_str names)) as [H | H];
    rewrite ?sorted_str_elem_of; auto.
  - now rewrite (canonical_of_le a b (vertex_pairs_sorted _ _ _ H)).
  - rewrite canonical_sym.
    now rewrite (canonical_of_le b a (vertex_pairs_sorted _ _ _ H)).
Qed.

(** Two memberships of a vertex, whatever their names, are paired once. *)
Lemma vertex_pairs_positions (names : list string) (p q : nat) (a b : string) :
  names !! p = Some a -> names !! q = Some b -> p <> q ->
  canonical a b ∈ vertex_pairs names.
Proof.
  intros Hp Hq Hne.
  destruct (proj1 (Permutation_inj names (Py.sorted_str names)))
    as (_ & f & Hinj & Hf); [symmetry; apply sorted_str_perm|].
  rewrite Hf in Hp, Hq.
  assert (Hfne : f p <> f q) by (intros H; apply Hne, Hinj, H).
  destruct (decide (f p < f q)%nat) as [Hlt|Hge].
  - assert (H : (a, b) ∈ vertex_pairs names)
      by (apply elem_of_combinations2_lookup; eauto).
    now rewrite (canonical_of_le a b (vertex_pairs_sorted _ _ _ H)).
  - assert (H : (b, a) ∈ vertex_pairs names)
      by (apply elem_of_combinations2_lookup; exists (f q), (f p);
          repeat split; [lia|exact Hq|exact Hp]).
    rewrite canonical_sym.
    now rewrite (canonical_of_le b a (vertex_pairs_sorted _ _ _ H)).
Qed.

Lemma filter_none {A : Type} (P : A -> Prop) `{!forall x, Decision (P x)}
    (l : list A) :
  (forall x, x ∈ l -> ~ P x) -> filter P l = [].
Proof.
  intros Hno. destruct (filter P l) as [|x r] eqn:Hf; [reflexivity|].
  assert (Hx : x ∈ filter P l) by (rewrite Hf; apply list_elem_of_here).
  apply list_elem_of_filter in Hx as [HP Hx]. now apply Hno in Hx.
Qed.

(** How often a vertex yields the pair of two different names: once for
    each choice of an occurrence of either name among its active names. *)
Lemma vertex_pairs_count (names : list string) (a b : string) :
  a <> b ->
  length (filter (fun k => k = canonical a b) (vertex_pairs names))
  = (length (filter (fun x => x = a) names)
     * length (filter (fun x => x = b) names))%nat.
Proof.
  intros Hab. unfold vertex_pairs.
  pose proof (combinations2_count a b (Py.sorted_str names) Hab) as Hc.
  rewrite !(Permutation_length
              (filter_Permutation _ _ _ (sorted_str_perm names))) in Hc.
  assert (Hrev : forall x y, x <> y -> Py.str_le x y ->
            filter (fun k => k = (y, x)) (Py.combinations2 (Py.sorted_str names))
            = []).
  { intros x y Hxy Hle. apply filter_none. intros k Hk ->.
    apply (combinations2_sorted Py.str_le) in Hk; [|apply sorted_str_sorted].
    apply Hxy. now apply (anti_symm Py.str_le). }
  unfold canonical. destruct (decide (Py.str_le a b)) as [Hle|Hnle].
  - rewrite (Hrev a b Hab Hle) in Hc. cbn [length] in Hc. lia.
  - assert (Hle : Py.str_le b a) by (destruct (total Py.str_le a b); tauto).
    rewrite (Hrev b a) in Hc by auto. cbn [length] in Hc. lia.
Qed.

Lemma same_pair_sorted (k1 k2 : string * string) :
  Py.str_le k1.1 k1.2 -> Py.str_le k2.1 k2.2 -> same_pair k1 k2 -> k1 = k2.
Proof.
  destruct k1 as [a b], k2 as [c d]. simpl. intros H1 H2 [H | H]; [exact H|].
  simpl in H. inversion H; subst.
  now rewrite (anti_symm Py.str_le _ _ H1 H2).
Qed.

Lemma active_names_length vgs v names :
  active_names vgs v = Some names ->
  length names = length (filter positive (v_groups v)).
Proof. intros H. symmetry. exact (length_mapM _ _ _ H). Qed.

Lemma same_index_same_vertex (vs : list MeshVertex) (v v' : MeshVertex) :
  NoDup (v_index <$> vs) -> v ∈ vs -> v' ∈ vs -> v_index v = v_index v' ->
  v = v'.
Proof.
  intros Hnd [i Hi]%list_elem_of_lookup [j Hj]%list_elem_of_lookup Heq.
  assert (i = j) as ->.
  { apply (NoDup_lookup _ i j (v_index v) Hnd); rewrite list_lookup_fmap.
    - now rewrite Hi.
    - now rewrite Hj, Heq. }
  congruence.
Qed.

(** Every stored entry decodes to the ascending list of its set. *)
Lemma item_indices_make_item (k : string * string) (s : gset Z) :
  item_indices (verts (make_item (k, s))) = Some (Py.sorted_int s).
Proof. rewrite make_item_verts. apply item_indices_render. Qed.

End CheckOperator.

(** ** Properties of the overlap analysis *)

Section Analysis.

Local Ltac table_of Ha Hf m :=
  let Hs := fresh "Hscan" in
  let Hl := fresh "Hlist" in
  let Hnd := fresh "Hnodup" in
  let Hm := fresh "Hsets" in
  destruct (check_table _ _ Ha Hf) as (m & Hs & Hl & Hnd & Hm).

Local Ltac entry_of Hin k s :=
  let He := fresh "Hentry" in
  let Heq := fresh "Hitem" in
  apply list_elem_of_fmap in Hin as ([k s] & Heq & He).

(** C2 (completeness).  On a finished analysis, whenever two distinct
    names [a] and [b] occur among the active group names of a vertex [v]
    (so [v] has at least two active groups), the table holds an entry
    labelled with that pair, in ascending order of the names, whose vertex
    indices contain [v.index]. *)
Theorem analyze_complete ctx obj v names (a b : string) :
  active_object ctx = Some obj ->
  status (check_vertex_overlaps ctx) = FINISHED ->
  v ∈ vertices obj ->
  active_names (vertex_groups obj) v = Some names ->
  a ∈ names -> b ∈ names -> a <> b ->
  exists item vs,
    item ∈ vertex_overlap_list (context (check_vertex_overlaps ctx))
    /\ groups item = (canonical a b).1 ++ " + " ++ (canonical a b).2
    /\ item_indices (verts item) = Some vs
    /\ v_index v ∈ vs.
Proof.
  intros Ha Hf Hv Hn Hna Hnb Hne. table_of Ha Hf m.
  assert (Hc : contributes (vertex_groups obj) (vertices obj)
                 (canonical a b) (v_index v)).
  { exists v, names. repeat split; auto. now apply vertex_pairs_canonical. }
  destruct (scan_table _ _ _ Hscan) as (_ & _ & Hmem).
  apply Hmem in Hc as (s & Hin & Hz).
  exists (make_item (canonical a b, s)), (Py.sorted_int s). repeat split.
  - rewrite Hlist. apply list_elem_of_fmap. eauto.
  - now destruct (canonical a b).
  - apply item_indices_make_item.
  - now apply sorted_int_elem_of.
Qed.

Lemma analyze_complete_witness :
  exists item vs,
    item ∈ vertex_overlap_list (context (check_vertex_overlaps Scenario.ctx))
    /\ groups item = (canonical "Spine" "Hip").1 ++ " + " ++ (canonical "Spine" "Hip").2
    /\ item_indices (verts item) = Some vs
    /\ 0 ∈ vs.
Proof.
  apply (analyze_complete Scenario.ctx Scenario.mesh
           Scenario.v0 ["Hip"; "Spine"] "Spine" "Hip").
  - reflexivity.
  - vm_compute. reflexivity.
  - apply list_elem_of_here.
  - vm_compute. reflexivity.
  - apply list_elem_of_further, list_elem_of_here.
  - apply list_elem_of_here.
  - discriminate.
Defined.

(** C5 (one entry per unordered pair).  The table of a finished analysis
    is the rendering, entry by entry, of a keyed table in which no two
    positions hold the same unordered pair of names and every key is in
    ascending order; a vertex with positive weight in two groups, named
    [a] and [b], is filed under one key, the same for [(a, b)] and
    [(b, a)]. *)
Theorem analyze_pair_unique ctx obj :
  active_object ctx = Some obj ->
  status (check_vertex_overlaps ctx) = FINISHED ->
  exists m,
    scan (vertex_groups obj) (vertices obj) [] = Some m
    /\ vertex_overlap_list (context (check_vertex_overlaps ctx)) = make_item <$> m
    /\ (forall i j k1 s1 k2 s2,
          m !! i = Some (k1, s1) -> m !! j = Some (k2, s2) ->
          same_pair k1 k2 -> i = j)
    /\ (forall g1 g2 s, ((g1, g2), s) ∈ m -> Py.str_le g1 g2)
    /\ (forall v names p q a b,
          v ∈ vertices obj ->
          active_names (vertex_groups obj) v = Some names ->
          names !! p = Some a -> names !! q = Some b -> p <> q ->
          canonical a b = canonical b a
          /\ exists i s,
               m !! i = Some (canonical a b, s) /\ v_index v ∈ s
               /\ forall j k' s', m !! j = Some (k', s') ->
                                  same_pair k' (a, b) -> j = i).
Proof.
  intros Ha Hf. table_of Ha Hf m. exists m.
  assert (Hle : forall g1 g2 s, ((g1, g2), s) ∈ m -> Py.str_le g1 g2).
  { intros g1 g2 s Hin. destruct (Hsets _ _ Hin) as [Hne Hz].
    destruct (set_choose_L s Hne) as [z Hzs].
    apply Hz in Hzs as (v & names & _ & _ & Hp & _).
    now apply vertex_pairs_sorted in Hp. }
  assert (Hpos : forall i j k1 s1 k2 s2,
             m !! i = Some (k1, s1) -> m !! j = Some (k2, s2) ->
             same_pair k1 k2 -> i = j).
  { intros i j [a1 b1] s1 [a2 b2] s2 Hi Hj Hsame.
    assert (Heq : (a1, b1) = (a2, b2)).
    { apply same_pair_sorted; simpl; auto.
      - eapply Hle, list_elem_of_lookup_2, Hi.
      - eapply Hle, list_elem_of_lookup_2, Hj. }
    apply (NoDup_lookup _ i j (a1, b1) Hnodup); rewrite list_lookup_fmap.
    - now rewrite Hi.
    - now rewrite Hj, Heq. }
  repeat split; auto.
  - apply canonical_sym.
  - destruct (scan_table _ _ _ Hscan) as (_ & _ & Hmem).
    assert (Hc : contributes (vertex_groups obj) (vertices obj)
                   (canonical a b) (v_index v)).
    { exists v, names. repeat split; auto.
      now apply (vertex_pairs_positions names p q). }
    apply Hmem in Hc as (s & Hin & Hz).
    apply list_elem_of_lookup in Hin as [i Hi]. exists i, s.
    repeat split; auto. intros j k' s' Hj Hsame.
    apply (Hpos j i k' s' (canonical a b) s Hj Hi).
    unfold canonical. destruct (decide (Py.str_le a b)).
    + exact Hsame.
    + destruct Hsame as [-> | ->]; [now right | now left].
Qed.

Lemma analyze_pair_unique_witness :
  exists m,
    scan (vertex_groups Scenario.mesh) (vertices Scenario.mesh) [] = Some m
    /\ vertex_overlap_list (context (check_vertex_overlaps Scenario.ctx))
       = make_item <$> m
    /\ (forall i j k1 s1 k2 s2,
          m !! i = Some (k1, s1) -> m !! j = Some (k2, s2) ->
          same_pair k1 k2 -> i = j)
    /\ (forall g1 g2 s, ((g1, g2), s) ∈ m -> Py.str_le g1 g2)
    /\ (forall v names p q a b,
          v ∈ vertices Scenario.mesh ->
          active_names (vertex_groups Scenario.mesh) v = Some names ->
          names !! p = Some a -> names !! q = Some b -> p <> q ->
          canonical a b = canonical b a
          /\ exists i s,
               m !! i = Some (canonical a b, s) /\ v_index v ∈ s
               /\ forall j k' s', m !! j = Some (k', s') ->
                                  same_pair k' (a, b) -> j = i).
Proof.
  apply (analyze_pair_unique Scenario.ctx Scenario.mesh).
  - reflexivity.
  - vm_compute. reflexivity.
Defined.

(** C6 (minimality).  On a mesh whose vertices carry distinct indices, a
    vertex with fewer than two active groups (weight strictly above 0.0)
    has its index in the vertex indices of no entry of a finished
    analysis. *)
Theorem analyze_minimal ctx obj v :
  active_object ctx = Some obj ->
  status (check_vertex_overlaps ctx) = FINISHED ->
  NoDup (v_index <$> vertices obj) ->
  v ∈ vertices obj ->
  (length (filter positive (v_groups v)) < 2)%nat ->
  forall item,
    item ∈ vertex_overlap_list (context (check_vertex_overlaps ctx)) ->
    exists vs, item_indices (verts item) = Some vs /\ v_index v ∉ vs.
Proof.
  intros Ha Hf Hnd Hv Hlen item Hin. table_of Ha Hf m.
  rewrite Hlist in Hin. entry_of Hin k s. subst item.
  exists (Py.sorted_int s). split; [apply item_indices_make_item|].
  rewrite sorted_int_elem_of. intros Hz.
  apply (Hsets _ _ Hentry) in Hz as (v' & names & Hv' & Hn & Hp & Hidx).
  assert (v' = v) as -> by (eapply same_index_same_vertex; eauto).
  unfold vertex_pairs in Hp. rewrite combinations2_short in Hp.
  - now apply elem_of_nil in Hp.
  - rewrite (Permutation_length (sorted_str_perm names)).
    now rewrite (active_names_length _ _ _ Hn).
Qed.

Lemma analyze_minimal_witness :
  Scenario.v1 ∈ vertices Scenario.mesh
  /\ (length (filter positive (v_groups Scenario.v1)) < 2)%nat
  /\ forall item,
       item ∈ vertex_overlap_list (context (check_vertex_overlaps Scenario.ctx)) ->
       exists vs, item_indices (verts item) = Some vs /\ 1 ∉ vs.
Proof.
  assert (Hin : Scenario.v1 ∈ vertices Scenario.mesh)
    by apply list_elem_of_further, list_elem_of_here.
  assert (Hlen : (length (filter positive (v_groups Scenario.v1)) < 2)%nat)
    by (vm_compute; lia).
  split; [exact Hin|]. split; [exact Hlen|].
  apply (analyze_minimal Scenario.ctx Scenario.mesh Scenario.v1).
  - reflexivity.
  - vm_compute. reflexivity.
  - vm_compute. repeat constructor; set_solver.
  - exact Hin.
  - exact Hlen.
Defined.

(** C8 (cached count).  Every entry of a finished analysis stores in
    [count] the number of elements of its set of vertex indices: the set
    accumulated for its pair, which is also the set of the indices its
    [verts] text decodes to. *)
Theorem analyze_count ctx obj item :
  active_object ctx = Some obj ->
  status (check_vertex_overlaps ctx) = FINISHED ->
  item ∈ vertex_overlap_list (context (check_vertex_overlaps ctx)) ->
  exists k s vs,
    item = make_item (k, s)
    /\ (forall z, z ∈ s <-> contributes (vertex_groups obj) (vertices obj) k z)
    /\ item_indices (verts item) = Some vs
    /\ NoDup vs
    /\ list_to_set vs = s
    /\ count item = Z.of_nat (size s)
    /\ count item = Z.of_nat (length vs).
Proof.
  intros Ha Hf Hin. table_of Ha Hf m.
  rewrite Hlist in Hin. entry_of Hin k s. subst item.
  exists k, s, (Py.sorted_int s). split; [reflexivity|].
  split; [apply (Hsets _ _ Hentry)|].
  split; [apply item_indices_make_item|].
  split; [apply sorted_int_NoDup|].
  split.
  - apply set_eq. intros z. now rewrite elem_of_list_to_set, sorted_int_elem_of.
  - rewrite make_item_count, sorted_int_length. auto.
Qed.

Lemma analyze_count_witness :
  exists k s vs,
    {| groups := "Hip + Spine"; count := 1; verts := "0"; selected := false |}
      = make_item (k, s)
    /\ (forall z, z ∈ s <-> contributes (vertex_groups Scenario.mesh)
                              (vertices Scenario.mesh) k z)
    /\ item_indices "0" = Some vs
    /\ NoDup vs
    /\ list_to_set vs = s
    /\ 1 = Z.of_nat (size s)
    /\ 1 = Z.of_nat (length vs).
Proof.
  apply (analyze_count Scenario.ctx Scenario.mesh
           {| groups := "Hip + Spine"; count := 1; verts := "0";
              selected := false |}).
  - reflexivity.
  - vm_compute. reflexivity.
  - vm_compute. apply list_elem_of_here.
Defined.

(** C9 (display form).  Every entry of a finished analysis shows the
    label [g1 + g2] of its pair and a text that reads as the vertex
    indices of the pair: cut at its commas it is the list of their
    decimal numerals, one piece for each index, in strictly ascending
    numeric order and so without duplicates, and parsing the pieces gives
    the indices back. *)
Theorem analyze_display ctx obj item :
  active_object ctx = Some obj ->
  status (check_vertex_overlaps ctx) = FINISHED ->
  item ∈ vertex_overlap_list (context (check_vertex_overlaps ctx)) ->
  exists g1 g2 vs,
    groups item = g1 ++ " + " ++ g2
    /\ verts item = Py.join "," (map Py.str vs)
    /\ vs <> []
    /\ Py.split_comma (verts item) = map Py.str vs
    /\ item_indices (verts item) = Some vs
    /\ StronglySorted Z.lt vs
    /\ NoDup vs
    /\ (forall z, z ∈ vs <->
          contributes (vertex_groups obj) (vertices obj) (g1, g2) z).
Proof.
  intros Ha Hf Hin. table_of Ha Hf m.
  rewrite Hlist in Hin. entry_of Hin k s. subst item. destruct k as [g1 g2].
  destruct (Hsets _ _ Hentry) as [Hne Hz].
  assert (Hvs : Py.sorted_int s <> []) by now rewrite sorted_int_nil.
  exists g1, g2, (Py.sorted_int s). split; [reflexivity|].
  split; [reflexivity|]. split; [exact Hvs|].
  split; [rewrite make_item_verts; now apply split_join_str|].
  split; [apply item_indices_make_item|].
  split; [apply sorted_int_ascending|].
  split; [apply sorted_int_NoDup|].
  intros z. rewrite sorted_int_elem_of. apply Hz.
Qed.

(** The theorem at an entry of three indices, whose numerals in the order
    of their texts would read 0, 10, 9. *)
Lemma analyze_display_witness :
  exists g1 g2 vs,
    "Hip + Spine" = g1 ++ " + " ++ g2
    /\ "0,9,10" = Py.join "," (map Py.str vs)
    /\ vs <> []
    /\ Py.split_comma "0,9,10" = map Py.str vs
    /\ item_indices "0,9,10" = Some vs
    /\ StronglySorted Z.lt vs
    /\ NoDup vs
    /\ (forall z, z ∈ vs <->
          contributes (vertex_groups Spread.mesh) (vertices Spread.mesh)
            (g1, g2) z).
Proof.
  apply (analyze_display Spread.ctx Spread.mesh
           {| groups := "Hip + Spine"; count := 3; verts := "0,9,10";
              selected := false |}).
  - reflexivity.
  - vm_compute. reflexivity.
  - vm_compute. apply list_elem_of_here.
Defined.

(** C10 (entries are born non-empty and unticked).  Every entry of a
    finished analysis has [selected = False] and a count of at least 1,
    and each of its vertex indices is the index of a vertex of the mesh
    with at least two active groups, two of which carry the names of the
    entry's pair. *)
Theorem analyze_entries_inhabited ctx obj item :
  active_object ctx = Some obj ->
  status (check_vertex_overlaps ctx) = FINISHED ->
  item ∈ vertex_overlap_list (context (check_vertex_overlaps ctx)) ->
  selected item = false
  /\ 1 <= count item
  /\ exists g1 g2 vs,
       groups item = g1 ++ " + " ++ g2
       /\ item_indices (verts item) = Some vs
       /\ vs <> []
       /\ forall z, z ∈ vs ->
            exists v names,
              v ∈ vertices obj /\ v_index v = z
              /\ active_names (vertex_groups obj) v = Some names
              /\ (2 <= length names)%nat
              /\ (g1, g2) ∈ vertex_pairs names.
Proof.
  intros Ha Hf Hin. table_of Ha Hf m.
  rewrite Hlist in Hin. entry_of Hin k s. subst item.
  destruct (Hsets _ _ Hentry) as [Hne Hz].
  split; [apply make_item_selected|]. split.
  - rewrite make_item_count.
    assert (size s <> 0%nat) by (intros H0%size_empty_inv; now apply Hne, leibniz_equiv).
    lia.
  - destruct k as [g1 g2]. exists g1, g2, (Py.sorted_int s).
    split; [reflexivity|]. split; [apply item_indices_make_item|].
    split; [now rewrite sorted_int_nil|].
    intros z Hzs. apply sorted_int_elem_of, Hz in Hzs.
    destruct Hzs as (v & names & Hv & Hn & Hp & Hidx).
    exists v, names. repeat split; auto.
    destruct (decide (2 <= length names)%nat) as [Hl|Hl]; [exact Hl|].
    unfold vertex_pairs in Hp. rewrite combinations2_short in Hp.
    + now apply elem_of_nil in Hp.
    + rewrite (Permutation_length (sorted_str_perm names)). lia.
Qed.

Lemma analyze_entries_inhabited_witness :
  false = false
  /\ 1 <= 1
  /\ exists g1 g2 vs,
       "Hip + Spine" = g1 ++ " + " ++ g2
       /\ item_indices "0" = Some vs
       /\ vs <> []
       /\ forall z, z ∈ vs ->
            exists v names,
              v ∈ vertices Scenario.mesh /\ v_index v = z
              /\ active_names (vertex_groups Scenario.mesh) v = Some names
              /\ (2 <= length names)%nat
              /\ (g1, g2) ∈ vertex_pairs names.
Proof.
  apply (analyze_entries_inhabited Scenario.ctx Scenario.mesh
           {| groups := "Hip + Spine"; count := 1; verts := "0";
              selected := false |}).
  - reflexivity.
  - vm_compute. reflexivity.
  - vm_compute. apply list_elem_of_here.
Defined.

(** C3, as the specification has it, fails: on a mesh without vertex
    groups the operator does not finish with an empty table.  It is
    cancelled, and the table of the earlier analysis stays in the scene. *)
Lemma analyze_zero_groups_counterexample :
  active_object NoGroups.ctx = Some NoGroups.mesh
  /\ vertex_groups NoGroups.mesh = []
  /\ status (check_vertex_overlaps NoGroups.ctx) = CANCELLED
  /\ vertex_overlap_list (context (check_vertex_overlaps NoGroups.ctx))
     = Scenario.table
  /\ ~ (status (check_vertex_overlaps NoGroups.ctx) = FINISHED
        /\ vertex_overlap_list (context (check_vertex_overlaps NoGroups.ctx)) = []).
Proof.
  repeat split; try reflexivity. intros [H _]. vm_compute in H. discriminate.
Qed.

(** C3, amended.  On a mesh object without vertex groups the analysis is
    cancelled with the warning "No vertex groups found on this mesh"; it
    computes no table and leaves the context, with the table stored
    before, untouched. *)
Theorem analyze_zero_groups ctx obj :
  active_object ctx = Some obj ->
  obj_type obj = "MESH" ->
  vertex_groups obj = [] ->
  check_vertex_overlaps ctx
  = {| context := ctx; status := CANCELLED;
       reports := [(WARNING, "No vertex groups found on this mesh")];
       log := [] |}.
Proof.
  intros Ha Ht Hg. unfold check_vertex_overlaps.
  rewrite (proj2 (validate_inl ctx "MESH" obj) (conj Ha Ht)).
  now rewrite Hg.
Qed.

Lemma analyze_zero_groups_witness :
  check_vertex_overlaps NoGroups.ctx
  = {| context := NoGroups.ctx; status := CANCELLED;
       reports := [(WARNING, "No vertex groups found on this mesh")];
       log := [] |}.
Proof.
  apply (analyze_zero_groups NoGroups.ctx NoGroups.mesh); reflexivity.
Defined.

(** C4, as the specification has it, fails when two group indices of a
    vertex share a display name: the name is paired with itself, and its
    pair with a third name is enumerated twice. *)
Lemma vertex_pairs_shared_name_counterexample :
  active_names (vertex_groups SharedName.mesh) SharedName.vertex
  = Some ["Arm"; "Arm"; "Leg"]
  /\ vertex_pairs ["Arm"; "Arm"; "Leg"]
     = [("Arm", "Arm"); ("Arm", "Leg"); ("Arm", "Leg")]
  /\ ~ (forall a b, (a, b) ∈ vertex_pairs ["Arm"; "Arm"; "Leg"] -> a <> b)
  /\ ~ NoDup (vertex_pairs ["Arm"; "Arm"; "Leg"])
  /\ vertex_overlap_list (context (check_vertex_overlaps SharedName.ctx))
     = [ {| groups := "Arm + Arm"; count := 1; verts := "0"; selected := false |};
         {| groups := "Arm + Leg"; count := 1; verts := "0"; selected := false |} ].
Proof.
  assert (Hp : vertex_pairs ["Arm"; "Arm"; "Leg"]
               = [("Arm", "Arm"); ("Arm", "Leg"); ("Arm", "Leg")])
    by (vm_compute; reflexivity).
  split; [vm_compute; reflexivity|]. split; [exact Hp|]. rewrite Hp.
  split; [|split].
  - intros H. apply (H "Arm" "Arm"); [apply list_elem_of_here|reflexivity].
  - intros H. apply NoDup_cons_1_2, NoDup_cons_1_1 in H.
    apply H, list_elem_of_here.
  - vm_compute. reflexivity.
Qed.

(** C4, amended.  For a vertex whose active group names are pairwise
    distinct, the analysis enumerates only pairs of two distinct names of
    that list, the smaller name first, and no pair twice, in either
    order.  In general the pair of two different names is enumerated once
    for each choice of an occurrence of either among the active names; so
    a name that two memberships of the vertex share is paired with
    itself, and its pair with every other active name is enumerated at
    least twice.  These pairs are all the vertex adds to the table. *)
Theorem vertex_pairs_distinct vgs v names :
  active_names vgs v = Some names ->
  (NoDup names ->
   (forall a b, (a, b) ∈ vertex_pairs names ->
      a ∈ names /\ b ∈ names /\ a <> b /\ Py.str_lt a b
      /\ (b, a) ∉ vertex_pairs names)
   /\ NoDup (vertex_pairs names))
  /\ (forall a b, a <> b ->
        length (filter (fun k => k = canonical a b) (vertex_pairs names))
        = (length (filter (fun x => x = a) names)
           * length (filter (fun x => x = b) names))%nat)
  /\ (forall a p q,
        names !! p = Some a -> names !! q = Some a -> p <> q ->
        (a, a) ∈ vertex_pairs names
        /\ forall b, b ∈ names -> b <> a ->
             (2 <= length (filter (fun k => k = canonical a b)
                                  (vertex_pairs names)))%nat)
  /\ (forall m k z,
        member (accumulate names (v_index v) m) k z
        <-> member m k z \/ (k ∈ vertex_pairs names /\ z = v_index v)).
Proof.
  intros _. split; [|split; [|split]].
  - intros Hnd.
    assert (Hpairs : NoDup (vertex_pairs names))
      by apply combinations2_NoDup, sorted_str_NoDup, Hnd.
    assert (Hlt : forall a b, (a, b) ∈ vertex_pairs names -> Py.str_lt a b).
    { intros a b Hin. pose proof (vertex_pairs_sorted _ _ _ Hin) as Hle.
      apply str_le_iff in Hle as [Hlt | ->]; [exact Hlt|]. exfalso.
      pose proof (sorted_str_NoDup _ Hnd) as Hs. unfold vertex_pairs in Hin.
      revert Hin Hs. generalize (Py.sorted_str names). intros l.
      induction l as [|x l IH]; [now rewrite elem_of_nil|].
      rewrite elem_of_combinations2_cons, NoDup_cons.
      intros [[-> Hb] | Hin] [Hx Hl]; [contradiction|auto]. }
    split; [|exact Hpairs].
    intros a b Hin. destruct (vertex_pairs_elem_of _ _ _ Hin) as [Ha Hb].
    pose proof (Hlt _ _ Hin) as Hab. repeat split; auto.
    + intros ->. now apply str_lt_irrefl in Hab.
    + intros Hba%Hlt. now apply (str_lt_asym a b).
  - intros a b Hab. now apply vertex_pairs_count.
  - intros a p q Hp Hq Hpq. split.
    + rewrite <- (canonical_of_le a a) by reflexivity.
      now apply (vertex_pairs_positions names p q).
    + intros b Hb Hba. rewrite vertex_pairs_count by congruence.
      pose proof (count_two_positions a names p q Hp Hq Hpq) as H2.
      assert (H1 : (1 <= length (filter (fun x => x = b) names))%nat).
      { assert (Hin : b ∈ filter (fun x => x = b) names)
          by (apply list_elem_of_filter; auto).
        destruct (filter (fun x => x = b) names);
          [now apply elem_of_nil in Hin|cbn [length]; lia]. }
      nia.
  - intros m k z. rewrite accumulate_fold. apply fold_add_member.
Qed.

(** The theorem at a vertex with three different active names, where the
    three pairs come out once each, and at a vertex with a name shared by
    two memberships, where the name is paired with itself and its pair
    with the third name comes out twice. *)
Lemma vertex_pairs_distinct_witness :
  (active_names (vertex_groups Scenario.mesh) ThreeGroups.vertex
   = Some ["Tail"; "Hip"; "Spine"]
   /\ vertex_pairs ["Tail"; "Hip"; "Spine"]
      = [("Hip", "Spine"); ("Hip", "Tail"); ("Spine", "Tail")]
   /\ (forall a b, (a, b) ∈ vertex_pairs ["Tail"; "Hip"; "Spine"] ->
         a ∈ ["Tail"; "Hip"; "Spine"] /\ b ∈ ["Tail"; "Hip"; "Spine"]
         /\ a <> b /\ Py.str_lt a b
         /\ (b, a) ∉ vertex_pairs ["Tail"; "Hip"; "Spine"])
   /\ NoDup (vertex_pairs ["Tail"; "Hip"; "Spine"]))
  /\ (active_names (vertex_groups SharedName.mesh) SharedName.vertex
      = Some ["Arm"; "Arm"; "Leg"]
      /\ ("Arm", "Arm") ∈ vertex_pairs ["Arm"; "Arm"; "Leg"]
      /\ (2 <= length (filter (fun k => k = canonical "Arm" "Leg")
                              (vertex_pairs ["Arm"; "Arm"; "Leg"])))%nat).
Proof.
  assert (H3 : active_names (vertex_groups Scenario.mesh) ThreeGroups.vertex
               = Some ["Tail"; "Hip"; "Spine"]) by (vm_compute; reflexivity).
  assert (Hs : active_names (vertex_groups SharedName.mesh) SharedName.vertex
               = Some ["Arm"; "Arm"; "Leg"]) by (vm_compute; reflexivity).
  split.
  - split; [exact H3|]. split; [vm_compute; reflexivity|].
    apply (vertex_pairs_distinct (vertex_groups Scenario.mesh)
             ThreeGroups.vertex ["Tail"; "Hip"; "Spine"] H3).
    repeat (apply NoDup_cons; split;
            [rewrite ?elem_of_cons, elem_of_nil; intros H;
             repeat (destruct H as [H | H]; [discriminate|]); exact H|]).
    apply NoDup_nil_2.
  - split; [exact Hs|].
    destruct (vertex_pairs_distinct (vertex_groups SharedName.mesh)
                SharedName.vertex ["Arm"; "Arm"; "Leg"] Hs)
      as (_ & _ & Hshared & _).
    destruct (Hshared "Arm" 0%nat 1%nat eq_refl eq_refl ltac:(discriminate))
      as [Hself Hrep].
    split; [exact Hself|]. apply Hrep.
    + apply list_elem_of_further, list_elem_of_further, list_elem_of_here.
    + discriminate.
Defined.

End Analysis.

(** ** Properties of the face selection *)

Section Selection.

Implicit Types (ixs : gset Z) (f : BMFace) (fs : list BMFace).

Lemma touches_spec ixs f :
  touches ixs f = true <-> exists v, v ∈ f_verts f /\ v ∈ ixs.
Proof.
  unfold touches. rewrite existsb_exists. split.
  - intros (v & Hv & Hb). exists v. rewrite list_elem_of_In.
    now apply bool_decide_eq_true in Hb.
  - intros (v & Hv & Hin). exists v. rewrite <- list_elem_of_In.
    now rewrite bool_decide_eq_true.
Qed.

Lemma select_touching_faces ixs fs :
  (select_touching ixs fs).1
  = (fun f => if touches ixs f then set_select true f else f) <$> fs.
Proof.
  induction fs as [|f fs IH]; [reflexivity|]. simpl.
  destruct (select_touching ixs fs) as [r n]. simpl in IH. subst r.
  now destruct (touches ixs f).
Qed.

Lemma select_touching_count ixs fs :
  (select_touching ixs fs).2
  = Z.of_nat (length (filter (fun f => touches ixs f = true) fs)).
Proof.
  induction fs as [|f fs IH]; [reflexivity|]. simpl.
  destruct (select_touching ixs fs) as [r n]. simpl in IH. subst n.
  rewrite filter_cons. destruct (touches ixs f) eqn:Ht.
  - rewrite decide_True by reflexivity. simpl length. simpl. lia.
  - rewrite decide_False by discriminate. reflexivity.
Qed.

(** The two loops over [bm.faces] after [reveal]: a face ends selected
    exactly when it touches the collected indices. *)
Lemma selection_lookup ixs fs i f :
  fs !! i = Some f ->
  exists f',
    (select_touching ixs (set_select false <$> (reveal <$> fs))).1 !! i = Some f'
    /\ f_verts f' = f_verts f
    /\ f_hide f' = false
    /\ f_select f' = touches ixs f.
Proof.
  intros Hi. rewrite select_touching_faces, !list_lookup_fmap, Hi. simpl.
  eexists. split; [reflexivity|].
  change (touches ixs (set_select false (reveal f))) with (touches ixs f).
  destruct (touches ixs f); auto.
Qed.

Lemma collect_fold (acc : Collected) (l : list VertexOverlapItem) :
  indices (foldl collect_item acc l)
  = indices acc ∪ ⋃ ((fun it => if selected it then decoded it else ∅) <$> l)
  /\ selected_count (foldl collect_item acc l)
     = selected_count acc + Z.of_nat (length (filter (fun it => selected it = true) l)).
Proof.
  revert acc. induction l as [|it l IH]; intros acc.
  - simpl. split; [set_solver | lia].
  - cbn [foldl]. destruct (IH (collect_item acc it)) as [-> ->].
    rewrite fmap_cons, filter_cons. cbn [union_list foldr].
    unfold collect_item, decoded. destruct (selected it).
    + rewrite decide_True by reflexivity. cbn [length].
      destruct (Py.truthy (Py.strip (verts it)));
        [destruct (item_indices (verts it))|]; simpl; split; set_solver || lia.
    + rewrite decide_False by discriminate. split; set_solver || lia.
Qed.

Lemma collect_indices (l : list VertexOverlapItem) :
  indices (collect l)
  = ⋃ ((fun it => if selected it then decoded it else ∅) <$> l).
Proof.
  unfold collect. rewrite (proj1 (collect_fold _ l)). simpl. set_solver.
Qed.

Lemma collect_selected_count (l : list VertexOverlapItem) :
  selected_count (collect l)
  = Z.of_nat (length (filter (fun it => selected it = true) l)).
Proof. unfold collect. rewrite (proj2 (collect_fold _ l)). simpl. lia. Qed.

(** An entry whose text renders [vs] is read back as the set of [vs]. *)
Lemma decoded_render (item : VertexOverlapItem) (vs : list Z) :
  verts item = render vs -> decoded item = list_to_set vs.
Proof.
  intros H. unfold decoded. rewrite H, item_indices_render.
  unfold render. rewrite join_str_truthy. destruct vs; reflexivity.
Qed.

Lemma collect_chosen (entries : list VertexOverlapItem) (sets : list (list Z)) :
  Forall2 (fun it vs => selected it = true -> verts it = render vs) entries sets ->
  indices (collect entries) = chosen_union entries sets.
Proof.
  intros H. rewrite collect_indices. unfold chosen_union. f_equal.
  induction H as [|it vs entries sets Hit _ IH]; [reflexivity|].
  rewrite fmap_cons. cbn [zip_with]. rewrite IH.
  destruct (selected it); [|reflexivity].
  now rewrite (decoded_render it vs (Hit eq_refl)).
Qed.

Lemma collect_none_selected (l : list VertexOverlapItem) :
  Forall (fun it => selected it = false) l ->
  collect l = {| indices := ∅; selected_count := 0; warnings := [] |}.
Proof.
  intros H. unfold collect.
  generalize {| indices := ∅; selected_count := 0; warnings := [] |}.
  induction H as [|it l Hit _ IH]; intros acc; [reflexivity|].
  simpl. unfold collect_item at 2. rewrite Hit. apply IH.
Qed.

Lemma selected_count_zero (l : list VertexOverlapItem) :
  selected_count (collect l) = 0 <-> Forall (fun it => selected it = false) l.
Proof.
  rewrite collect_selected_count. split.
  - intros H. assert (Hn : filter (fun it => selected it = true) l = []).
    { apply length_zero_iff_nil. lia. }
    apply Forall_forall. intros it Hin.
    destruct (selected it) eqn:Hs; [|reflexivity].
    apply (filter_nil_not_elem_of _ _ it Hn) in Hs. contradiction.
  - intros H. induction H as [|it l Hit _ IH]; [reflexivity|].
    rewrite filter_cons, decide_False; [exact IH|]. rewrite Hit. discriminate.
Qed.

Lemma chosen_union_nil (sets : list (list Z)) : chosen_union [] sets = ∅.
Proof. reflexivity. Qed.

(** C1 (materialization).  Let the ticked entries of the table hold, as
    text, their index sequences in [sets], and let [U] be the union of
    these sequences.  The selection finishes exactly when [U] is not
    empty, and then face by face, in the order of [bm.faces], the face ends
    selected if and only if one of the vertex indices of its loop is in
    [U].  In the remaining case [U] is empty, so that no face has a vertex
    in it, and the operator is cancelled without touching the mesh. *)
Theorem materialize_exact ctx obj (sets : list (list Z)) :
  active_object ctx = Some obj ->
  obj_type obj = "MESH" ->
  Forall2 (fun it vs => selected it = true -> verts it = render vs)
          (vertex_overlap_list ctx) sets ->
  (status (select_overlap_vertices ctx) = FINISHED
   <-> chosen_union (vertex_overlap_list ctx) sets ≠ ∅)
  /\ (status (select_overlap_vertices ctx) = FINISHED ->
      exists obj',
        active_object (context (select_overlap_vertices ctx)) = Some obj'
        /\ length (faces obj') = length (faces obj)
        /\ forall i f, faces obj !! i = Some f ->
             exists f',
               faces obj' !! i = Some f'
               /\ f_verts f' = f_verts f
               /\ (f_select f' = true
                   <-> exists v, v ∈ f_verts f
                         /\ v ∈ chosen_union (vertex_overlap_list ctx) sets))
  /\ (status (select_overlap_vertices ctx) <> FINISHED ->
      status (select_overlap_vertices ctx) = CANCELLED
      /\ context (select_overlap_vertices ctx) = ctx
      /\ chosen_union (vertex_overlap_list ctx) sets = ∅).
Proof.
  intros Ha Ht HF. pose proof (collect_chosen _ _ HF) as HU.
  unfold select_overlap_vertices.
  rewrite (proj2 (validate_inl ctx "MESH" obj) (conj Ha Ht)).
  destruct (vertex_overlap_list ctx) as [|it l] eqn:Hl.
  { rewrite chosen_union_nil. simpl. repeat split; try congruence; discriminate. }
  set (c := collect (it :: l)) in *. rewrite <- HU.
  case_bool_decide as Hcount.
  { assert (Hempty : indices c = ∅).
    { apply selected_count_zero in Hcount. subst c.
      now rewrite (collect_none_selected _ Hcount). }
    simpl. repeat split; try congruence; discriminate. }
  case_bool_decide as Hix.
  { simpl. repeat split; try congruence; discriminate. }
  pose proof (select_touching_faces (indices c)
                (set_select false <$> (reveal <$> faces obj))) as Hfs.
  destruct (select_touching (indices c)
              (set_select false <$> (reveal <$> faces obj))) as [fs n] eqn:Hsel.
  simpl in Hfs. simpl. split; [tauto|]. split; [|congruence].
  intros _. eexists. split; [reflexivity|]. simpl. split.
  - rewrite Hfs. now rewrite !length_fmap.
  - intros i f Hi.
    destruct (selection_lookup (indices c) _ i f Hi) as (f' & Hf' & Hv & _ & Hs).
    rewrite Hsel in Hf'. simpl in Hf'. exists f'.
    split; [exact Hf'|]. split; [exact Hv|].
    rewrite Hs. apply touches_spec.
Qed.

Lemma materialize_exact_witness :
  (status (select_overlap_vertices Scenario.ticked) = FINISHED
   <-> chosen_union (vertex_overlap_list Scenario.ticked) [[0]; [2]] ≠ ∅)
  /\ (status (select_overlap_vertices Scenario.ticked) = FINISHED ->
      exists obj',
        active_object (context (select_overlap_vertices Scenario.ticked)) = Some obj'
        /\ length (faces obj') = length (faces Scenario.mesh)
        /\ forall i f, faces Scenario.mesh !! i = Some f ->
             exists f',
               faces obj' !! i = Some f'
               /\ f_verts f' = f_verts f
               /\ (f_select f' = true
                   <-> exists v, v ∈ f_verts f
                         /\ v ∈ chosen_union (vertex_overlap_list Scenario.ticked)
                                 [[0]; [2]]))
  /\ (status (select_overlap_vertices Scenario.ticked) <> FINISHED ->
      status (select_overlap_vertices Scenario.ticked) = CANCELLED
      /\ context (select_overlap_vertices Scenario.ticked) = Scenario.ticked
      /\ chosen_union (vertex_overlap_list Scenario.ticked) [[0]; [2]] = ∅).
Proof.
  apply (materialize_exact Scenario.ticked Scenario.mesh [[0]; [2]]).
  - reflexivity.
  - reflexivity.
  - repeat constructor.
Defined.

(** C7 (nothing selected).  With a table that has entries, none of them
    ticked, the selection is cancelled with the warning "No overlap items
    selected. ..." and leaves the context as it was: it marks no face.
    The warning differs from the one given when the table is empty ("No
    overlaps found. ...") and from the one given when ticked entries exist
    but the union of their indices is empty ("No vertices found in
    selected overlap items"). *)
Theorem nothing_selected_signal ctx obj :
  active_object ctx = Some obj ->
  obj_type obj = "MESH" ->
  vertex_overlap_list ctx <> [] ->
  Forall (fun it => selected it = false) (vertex_overlap_list ctx) ->
  select_overlap_vertices ctx
  = {| context := ctx; status := CANCELLED;
       reports := [(WARNING, msg_nothing_selected)]; log := [] |}
  /\ (forall ctx',
        active_object ctx' = Some obj ->
        vertex_overlap_list ctx' = [] ->
        context (select_overlap_vertices ctx') = ctx'
        /\ status (select_overlap_vertices ctx') = CANCELLED
        /\ reports (select_overlap_vertices ctx') = [(WARNING, msg_no_overlaps)])
  /\ (forall ctx',
        active_object ctx' = Some obj ->
        Exists (fun it => selected it = true) (vertex_overlap_list ctx') ->
        ⋃ ((fun it => if selected it then decoded it else ∅)
             <$> vertex_overlap_list ctx') = (∅ : gset Z) ->
        context (select_overlap_vertices ctx') = ctx'
        /\ status (select_overlap_vertices ctx') = CANCELLED
        /\ reports (select_overlap_vertices ctx') = [(WARNING, msg_no_vertices)])
  /\ msg_nothing_selected <> msg_no_overlaps
  /\ msg_nothing_selected <> msg_no_vertices
  /\ msg_no_overlaps <> msg_no_vertices.
Proof.
  intros Ha Ht Hne Hnone.
  split; [|split; [|split; [|repeat split; discriminate]]].
  - unfold select_overlap_vertices.
    rewrite (proj2 (validate_inl ctx "MESH" obj) (conj Ha Ht)).
    destruct (vertex_overlap_list ctx) as [|it l] eqn:Hl; [congruence|].
    rewrite (collect_none_selected _ Hnone). reflexivity.
  - intros ctx' Ha' Hl. unfold select_overlap_vertices.
    rewrite (proj2 (validate_inl ctx' "MESH" obj) (conj Ha' Ht)), Hl.
    repeat split.
  - intros ctx' Ha' Hex Hu. unfold select_overlap_vertices.
    rewrite (proj2 (validate_inl ctx' "MESH" obj) (conj Ha' Ht)).
    rewrite <- collect_indices in Hu.
    destruct (vertex_overlap_list ctx') as [|it l] eqn:Hl;
      [now apply Exists_nil in Hex|].
    case_bool_decide as Hcount.
    + apply selected_count_zero in Hcount. exfalso.
      apply Exists_exists in Hex as (x & Hx & Hsel).
      rewrite Forall_forall in Hcount. specialize (Hcount x Hx). congruence.
    + rewrite bool_decide_eq_true_2 by exact Hu. repeat split.
Qed.

Lemma nothing_selected_signal_witness :
  select_overlap_vertices Scenario.unticked
  = {| context := Scenario.unticked; status := CANCELLED;
       reports := [(WARNING, msg_nothing_selected)]; log := [] |}
  /\ (forall ctx',
        active_object ctx' = Some Scenario.mesh ->
        vertex_overlap_list ctx' = [] ->
        context (select_overlap_vertices ctx') = ctx'
        /\ status (select_overlap_vertices ctx') = CANCELLED
        /\ reports (select_overlap_vertices ctx') = [(WARNING, msg_no_overlaps)])
  /\ (forall ctx',
        active_object ctx' = Some Scenario.mesh ->
        Exists (fun it => selected it = true) (vertex_overlap_list ctx') ->
        ⋃ ((fun it => if selected it then decoded it else ∅)
             <$> vertex_overlap_list ctx') = (∅ : gset Z) ->
        context (select_overlap_vertices ctx') = ctx'
        /\ status (select_overlap_vertices ctx') = CANCELLED
        /\ reports (select_overlap_vertices ctx') = [(WARNING, msg_no_vertices)])
  /\ msg_nothing_selected <> msg_no_overlaps
  /\ msg_nothing_selected <> msg_no_vertices
  /\ msg_no_overlaps <> msg_no_vertices.
Proof.
  apply (nothing_selected_signal Scenario.unticked Scenario.mesh).
  - reflexivity.
  - reflexivity.
  - discriminate.
  - repeat constructor.
Defined.

End Selection.

(** ** Suffixes of texts *)

Section Suffix.

Implicit Types (s n p q a b : string).

Lemma string_app_cons (c : ascii) s n : String c s ++ n = String c (s ++ n).
Proof. reflexivity. Qed.

Lemma string_app_nil_l n : "" ++ n = n.
Proof. reflexivity. Qed.

Lemma string_length_app p n :
  String.length (p ++ n) = (String.length p + String.length n)%nat.
Proof.
  induction p as [|c p IH]; [reflexivity|].
  rewrite string_app_cons. simpl. now rewrite IH.
Qed.

Lemma string_app_assoc p q n : (p ++ q) ++ n = p ++ (q ++ n).
Proof.
  induction p as [|c p IH]; [reflexivity|].
  rewrite !string_app_cons. now rewrite IH.
Qed.

Lemma substring_app p n : String.substring 0 (String.length p) (p ++ n) = p.
Proof.
  induction p as [|c p IH]; [now destruct n|].
  rewrite string_app_cons. simpl. now rewrite IH.
Qed.

(** [s.endswith(n)] holds exactly when [s] is some text followed by [n]. *)
Lemma endswith_spec s n : Py.endswith s n = true <-> exists p, s = p ++ n.
Proof.
  induction s as [|c s IH]; cbn [Py.endswith].
  - rewrite orb_false_r, String.eqb_eq. split.
    + intros <-. now exists "".
    + intros [[|c p] H]; [exact H|]. rewrite string_app_cons in H. discriminate.
  - rewrite orb_true_iff, String.eqb_eq, IH. split.
    + intros [<- | [p ->]]; [now exists ""|]. now exists (String c p).
    + intros [[|d p] H]; [left; exact H|]. right.
      rewrite string_app_cons in H. inversion H; subst. now exists p.
Qed.

(** Of two endings of one text, the shorter is an ending of the longer. *)
Lemma endings_comparable p q a b :
  p ++ a = q ++ b -> (String.length b <= String.length a)%nat ->
  exists r, a = r ++ b.
Proof.
  revert q. induction p as [|c p IH]; intros q H Hlen.
  - exists q. exact H.
  - destruct q as [|d q].
    + exfalso. rewrite string_app_nil_l in H. subst b.
      rewrite string_app_cons in Hlen. simpl in Hlen.
      rewrite string_length_app in Hlen. lia.
    + rewrite !string_app_cons in H. inversion H; subst. eauto.
Qed.

Lemma drop_last_app p n :
  n <> "" -> Py.drop_last (String.length n) (p ++ n) = p.
Proof.
  intros Hn. unfold Py.drop_last.
  destruct (Nat.eqb_spec (String.length n) 0) as [H0|_].
  - destruct n; [congruence|discriminate].
  - rewrite string_length_app, Nat.add_sub. apply substring_app.
Qed.

Lemma endswith_known_sound a b (r : bool) :
  endswith_known a b = Some r -> forall p, Py.endswith (p ++ a) b = r.
Proof.
  unfold endswith_known. intros H p.
  destruct (String.length b <=? String.length a)%nat eqn:Hlen.
  - apply Nat.leb_le in Hlen. inversion H; subst r.
    destruct (Py.endswith a b) eqn:Hab.
    + apply endswith_spec in Hab as [q ->]. apply endswith_spec.
      exists (p ++ q). now rewrite string_app_assoc.
    + destruct (Py.endswith (p ++ a) b) eqn:Hpab; [|reflexivity].
      apply endswith_spec in Hpab as [q Hq].
      destruct (endings_comparable _ _ _ _ Hq Hlen) as [t Ht].
      assert (Py.endswith a b = true) by (apply endswith_spec; eauto).
      congruence.
  - apply Nat.leb_gt in Hlen.
    destruct (Py.endswith b a) eqn:Hba; [discriminate|]. inversion H; subst r.
    destruct (Py.endswith (p ++ a) b) eqn:Hpab; [|reflexivity].
    apply endswith_spec in Hpab as [q Hq]. symmetry in Hq.
    destruct (endings_comparable _ _ _ _ Hq) as [t Ht]; [lia|].
    assert (Py.endswith b a = true) by (apply endswith_spec; eauto).
    congruence.
Qed.

Lemma first_match_sound (table : list (string * string)) a r :
  first_match table a = Some r ->
  forall p, find (fun sm => Py.endswith (p ++ a) (" " ++ sm.1)) table = r.
Proof.
  induction table as [|sm rest IH]; simpl.
  - now intros [= <-].
  - destruct (endswith_known a (" " ++ sm.1)) as [[|]|] eqn:Hk;
      [| |discriminate]; intros H p;
      rewrite (endswith_known_sound _ _ _ Hk p).
    + now inversion H.
    + now apply IH.
Qed.

End Suffix.

(** ** Properties of [_swap_by_suffix] *)

Section Limbs.

Lemma swap_in_app (table : list (string * string)) (a : string) sm p :
  first_match table a = Some (Some sm) ->
  a = " " ++ sm.1 ->
  swap_in table (p ++ a) = Some (p ++ " " ++ sm.2).
Proof.
  intros Hf Ha. unfold swap_in. rewrite (first_match_sound _ _ _ Hf p).
  destruct sm as [suf mapped]. cbn [fst snd] in *. subst a.
  now rewrite drop_last_app.
Qed.

Lemma swap_in_app_none (table : list (string * string)) (a : string) p :
  first_match table a = Some None -> swap_in table (p ++ a) = None.
Proof.
  intros Hf. unfold swap_in. now rewrite (first_match_sound _ _ _ Hf p).
Qed.

(** The names of the two maps, checked item by item: a Valve suffix stops
    the first loop at its own item; a Gearbox suffix passes the first loop
    and stops the second at its own item. *)
Lemma limb_items_decided :
  Forall (fun sm =>
            first_match limb_suffix_map (" " ++ sm.1) = Some (Some sm)
            /\ first_match limb_suffix_map (" " ++ sm.2) = Some None
            /\ first_match reverse_suffix_map (" " ++ sm.2) = Some (Some (sm.2, sm.1))
            /\ sm.1 <> sm.2)
         limb_suffix_map.
Proof.
  match goal with |- Forall ?P _ => remember P as decided eqn:HP end.
  unfold limb_suffix_map. subst decided.
  repeat constructor; try (vm_compute; reflexivity); discriminate.
Qed.

Lemma swap_in_found (table : list (string * string)) name r :
  swap_in table name = Some r ->
  exists sm p, sm ∈ table /\ name = p ++ " " ++ sm.1 /\ r = p ++ " " ++ sm.2.
Proof.
  unfold swap_in.
  destruct (find _ table) as [[suf mapped]|] eqn:Hf; [|discriminate].
  cbv zeta. intros H. apply (inj Some) in H. subst r.
  apply find_some in Hf as [Hin He]. cbn [fst] in He.
  apply endswith_spec in He as [p ->].
  exists (suf, mapped), p. cbn [fst snd]. rewrite drop_last_app by discriminate.
  split; [now apply list_elem_of_In|]. auto.
Qed.

Lemma swap_in_none (table : list (string * string)) name sm p :
  swap_in table name = None -> sm ∈ table -> name <> p ++ " " ++ sm.1.
Proof.
  unfold swap_in.
  destruct (find _ table) as [[suf mapped]|] eqn:Hf; [discriminate|].
  intros _ Hin ->. apply list_elem_of_In in Hin.
  pose proof (find_none _ _ Hf _ Hin) as Hn. cbn beta in Hn.
  assert (Py.endswith (p ++ " " ++ sm.1) (" " ++ sm.1) = true)
    by (apply endswith_spec; eauto).
  congruence.
Qed.

Lemma reverse_suffix_map_elem_of (sm : string * string) :
  sm ∈ reverse_suffix_map <-> (sm.2, sm.1) ∈ limb_suffix_map.
Proof.
  unfold reverse_suffix_map. rewrite list_elem_of_fmap. split.
  - intros ([k v] & -> & Hin). exact Hin.
  - intros Hin. exists (sm.2, sm.1). split; [now destruct sm|exact Hin].
Qed.

Lemma swap_by_suffix_item (sm : string * string) (p : string) :
  sm ∈ limb_suffix_map ->
  _swap_by_suffix (p ++ " " ++ sm.1) = p ++ " " ++ sm.2
  /\ _swap_by_suffix (p ++ " " ++ sm.2) = p ++ " " ++ sm.1
  /\ sm.1 <> sm.2.
Proof.
  intros Hin. pose proof limb_items_decided as Hall.
  rewrite Forall_forall in Hall. destruct (Hall sm Hin) as (H1 & H2 & H3 & H4).
  unfold _swap_by_suffix. split; [|split; [|exact H4]].
  - now rewrite (swap_in_app _ _ sm p H1 eq_refl).
  - rewrite (swap_in_app_none _ _ p H2).
    now rewrite (swap_in_app _ _ (sm.2, sm.1) p H3 eq_refl).
Qed.

(** X1.  For every item [suf: mapped] of [limb_suffix_map] and every
    text [p], the Valve name [p suf] is turned into the Gearbox name
    [p mapped] and the Gearbox name back into the Valve name. *)
Theorem swap_by_suffix_table (suf mapped p : string) :
  (suf, mapped) ∈ limb_suffix_map ->
  _swap_by_suffix (p ++ " " ++ suf) = p ++ " " ++ mapped
  /\ _swap_by_suffix (p ++ " " ++ mapped) = p ++ " " ++ suf.
Proof.
  intros Hin. destruct (swap_by_suffix_item (suf, mapped) p Hin) as (H1 & H2 & _).
  auto.
Qed.

Lemma swap_by_suffix_table_witness :
  _swap_by_suffix ("Bip01" ++ " " ++ "L Arm1") = "Bip01" ++ " " ++ "L UpperArm"
  /\ _swap_by_suffix ("Bip01" ++ " " ++ "L UpperArm") = "Bip01" ++ " " ++ "L Arm1".
Proof.
  apply (swap_by_suffix_table "L Arm1" "L UpperArm" "Bip01").
  unfold limb_suffix_map. do 5 apply list_elem_of_further. apply list_elem_of_here.
Defined.

Lemma swap_by_suffix_twice (name : string) :
  _swap_by_suffix (_swap_by_suffix name) = name.
Proof.
  unfold _swap_by_suffix at 2.
  destruct (swap_in limb_suffix_map name) as [r|] eqn:H1.
  - apply swap_in_found in H1 as (sm & p & Hin & -> & ->).
    now destruct (swap_by_suffix_item sm p Hin) as (_ & H & _).
  - destruct (swap_in reverse_suffix_map name) as [r|] eqn:H2.
    + apply swap_in_found in H2 as ([mapped suf] & p & Hin & -> & ->).
      apply reverse_suffix_map_elem_of in Hin. cbn [fst snd] in *.
      now destruct (swap_by_suffix_item (suf, mapped) p Hin) as (H & _ & _).
    + unfold _swap_by_suffix. now rewrite H1, H2.
Qed.

(** X2.  [_swap_by_suffix] is its own inverse: applied twice it gives
    back every name. *)
Theorem swap_by_suffix_involutive (name : string) :
  _swap_by_suffix (_swap_by_suffix name) = name.
Proof. apply swap_by_suffix_twice. Qed.

(** X3.  [_swap_by_suffix] changes a name exactly when the name ends with
    a space followed by a key or a value of [limb_suffix_map]; every other
    name, also a bare limb name without the space before it, is returned
    as it is. *)
Theorem swap_by_suffix_changes (name : string) :
  _swap_by_suffix name <> name
  <-> exists suf mapped p,
        (suf, mapped) ∈ limb_suffix_map
        /\ (name = p ++ " " ++ suf \/ name = p ++ " " ++ mapped).
Proof.
  split.
  - intros Hne. unfold _swap_by_suffix in Hne.
    destruct (swap_in limb_suffix_map name) as [r|] eqn:H1.
    + apply swap_in_found in H1 as ([suf mapped] & p & Hin & -> & _).
      exists suf, mapped, p. auto.
    + destruct (swap_in reverse_suffix_map name) as [r|] eqn:H2; [|congruence].
      apply swap_in_found in H2 as ([mapped suf] & p & Hin & -> & _).
      apply reverse_suffix_map_elem_of in Hin. exists suf, mapped, p. auto.
  - intros (suf & mapped & p & Hin & Hname).
    destruct (swap_by_suffix_item (suf, mapped) p Hin) as (H1 & H2 & Hd).
    cbn [fst snd] in *.
    destruct Hname as [-> | ->]; [rewrite H1 | rewrite H2];
      intros Heq; apply (inj (String.app p)), (inj (String.app " ")) in Heq;
      congruence.
Qed.

(** X15.  [_swap_by_suffix] never makes two names equal: it maps
    different names to different names, so a list of pairwise different
    names is mapped to a list of pairwise different names. *)
Theorem swap_by_suffix_keeps_distinct (names : list string) :
  NoDup names -> NoDup (_swap_by_suffix <$> names).
Proof.
  apply NoDup_fmap_2. intros a b Heq.
  rewrite <- (swap_by_suffix_twice a), <- (swap_by_suffix_twice b).
  now rewrite Heq.
Qed.

Lemma swap_by_suffix_keeps_distinct_witness :
  NoDup (_swap_by_suffix <$> ["Bip01 L Leg"; "Bip01 L Thigh"; "Bip01 Head"]).
Proof.
  apply (swap_by_suffix_keeps_distinct
           ["Bip01 L Leg"; "Bip01 L Thigh"; "Bip01 Head"]).
  repeat (apply NoDup_cons; split;
          [rewrite ?elem_of_cons, elem_of_nil; intros H;
           repeat (destruct H as [H | H]; [discriminate|]); exact H|]).
  apply NoDup_nil_2.
Defined.

End Limbs.

(** ** More about the two operators, and their neighbours *)

Section Outcomes.

Lemma check_keeps_object ctx :
  active_object (context (check_vertex_overlaps ctx)) = active_object ctx.
Proof.
  unfold check_vertex_overlaps.
  destruct (validate_active_object ctx "MESH") as [obj|e]; [|reflexivity].
  destruct (vertex_groups obj); [reflexivity|].
  destruct (scan _ _ _); reflexivity.
Qed.

Lemma count_zero_no_indices (l : list VertexOverlapItem) :
  selected_count (collect l) = 0 -> indices (collect l) = ∅.
Proof.
  intros H%selected_count_zero. now rewrite (collect_none_selected _ H).
Qed.

(** The three ways the selection is cancelled once the object is a mesh,
    and what it leaves behind when it is not. *)
Lemma select_outcome ctx obj :
  active_object ctx = Some obj ->
  obj_type obj = "MESH" ->
  (indices (collect (vertex_overlap_list ctx)) = ∅ ->
     status (select_overlap_vertices ctx) = CANCELLED
     /\ context (select_overlap_vertices ctx) = ctx)
  /\ (indices (collect (vertex_overlap_list ctx)) ≠ ∅ ->
      select_overlap_vertices ctx
      = let c := collect (vertex_overlap_list ctx) in
        let r := select_touching (indices c)
                   (set_select false <$> (reveal <$> faces obj)) in
        {| context :=
             {| active_object :=
                  Some {| obj_type := obj_type obj; obj_mode := "EDIT";
                          obj_select := true;
                          vertex_groups := vertex_groups obj;
                          vertices := vertices obj; faces := r.1 |};
                vertex_overlap_list := vertex_overlap_list ctx;
                mesh_select_mode := (false, false, true) |};
           status := FINISHED;
           reports :=
             [(INFO,
               "Selected " ++ Py.str r.2 ++ " faces from "
               ++ Py.str (Z.of_nat (size (indices c))) ++ " vertices ("
               ++ Py.str (selected_count c) ++ " overlap groups)")];
           log := warnings c |}).
Proof.
  intros Ha Ht. unfold select_overlap_vertices.
  rewrite (proj2 (validate_inl ctx "MESH" obj) (conj Ha Ht)).
  destruct (vertex_overlap_list ctx) as [|it l] eqn:Hl.
  { split; [auto|]. intros H. exfalso. apply H. reflexivity. }
  set (c := collect (it :: l)).
  case_bool_decide as Hcount.
  { split; [auto|]. intros H. exfalso. now apply H, count_zero_no_indices. }
  case_bool_decide as Hix.
  { split; [auto|]. intros H. contradiction. }
  split; [intros H; contradiction|]. intros _. cbv zeta.
  destruct (select_touching (indices c)
              (set_select false <$> (reveal <$> faces obj))) as [fs n].
  reflexivity.
Qed.

Lemma combinations2_nonempty {A : Type} (l : list A) :
  (exists k, k ∈ Py.combinations2 l) <-> (2 <= length l)%nat.
Proof.
  split.
  - intros [k Hk]. destruct (decide (2 <= length l)%nat) as [H|H]; [exact H|].
    rewrite combinations2_short in Hk by lia. now apply elem_of_nil in Hk.
  - destruct l as [|x [|y l]]; simpl; try lia. intros _.
    exists (x, y). apply list_elem_of_here.
Qed.

Lemma vertex_pairs_nonempty vgs v names :
  active_names vgs v = Some names ->
  (exists k, k ∈ vertex_pairs names) <-> overlapping v.
Proof.
  intros Hn. unfold vertex_pairs, overlapping.
  rewrite combinations2_nonempty, (Permutation_length (sorted_str_perm names)).
  now rewrite (active_names_length _ _ _ Hn).
Qed.

Lemma scan_active_names vgs vs m m' v :
  scan vgs vs m = Some m' -> v ∈ vs -> is_Some (active_names vgs v).
Proof.
  intros Hs Hv. assert (Hsome : is_Some (scan vgs vs m)) by eauto.
  apply scan_total in Hsome. rewrite Forall_forall in Hsome.
  apply active_names_valid, Hsome, Hv.
Qed.

(** An index is stored under some key exactly when a vertex with that
    index has two active groups. *)
Lemma contributes_overlapping vgs vs m z :
  scan vgs vs [] = Some m ->
  (exists k, contributes vgs vs k z)
  <-> exists v, v ∈ vs /\ v_index v = z /\ overlapping v.
Proof.
  intros Hs. split.
  - intros (k & v & names & Hv & Hn & Hk & Hz). exists v.
    repeat split; auto. apply (vertex_pairs_nonempty _ _ _ Hn). eauto.
  - intros (v & Hv & Hz & Ho).
    destruct (scan_active_names _ _ _ _ _ Hs Hv) as [names Hn].
    destruct (proj2 (vertex_pairs_nonempty _ _ _ Hn) Ho) as [k Hk].
    exists k, v, names. auto.
Qed.

Lemma decoded_make_item (k : string * string) (s : gset Z) (b : bool) :
  decoded (set_selected b (make_item (k, s))) = s.
Proof.
  rewrite (decoded_render _ (Py.sorted_int s)).
  - apply set_eq. intros z. now rewrite elem_of_list_to_set, sorted_int_elem_of.
  - now destruct k.
Qed.

(** With every entry of a fresh table ticked, the selection collects the
    indices of all its sets. *)
Lemma all_ticked_indices (m : overlaps) (z : Z) :
  z ∈ indices (collect (set_selected true <$> (make_item <$> m)))
  <-> exists k, member m k z.
Proof.
  rewrite collect_indices, elem_of_union_list. split.
  - intros (X & HX & Hz).
    apply list_elem_of_fmap in HX as (it & -> & Hit).
    apply list_elem_of_fmap in Hit as (it' & -> & Hit').
    apply list_elem_of_fmap in Hit' as ([k s] & -> & Hin).
    cbn [selected set_selected] in Hz. rewrite decoded_make_item in Hz.
    exists k, s. auto.
  - intros (k & s & Hin & Hz). exists s. split; [|exact Hz].
    apply list_elem_of_fmap. exists (set_selected true (make_item (k, s))).
    cbn [selected set_selected]. rewrite decoded_make_item. split; [reflexivity|].
    apply list_elem_of_fmap. exists (make_item (k, s)). split; [reflexivity|].
    apply list_elem_of_fmap. eauto.
Qed.

End Outcomes.

Section Pipeline.

Lemma table_empty_iff vgs vs (m : overlaps) :
  scan vgs vs [] = Some m ->
  (m = [] <-> Forall (fun v => ~ overlapping v) vs).
Proof.
  intros Hs. destruct (scan_table _ _ _ Hs) as (_ & Hne & Hmem). split.
  - intros ->. apply Forall_forall. intros v Hv Ho.
    destruct (proj2 (contributes_overlapping _ _ _ (v_index v) Hs)) as [k Hk];
      [eauto|].
    apply Hmem in Hk. now apply member_nil in Hk.
  - intros Hall. destruct m as [|[k s] m]; [reflexivity|]. exfalso.
    apply Forall_cons in Hne as [Hs0 _]. simpl in Hs0.
    destruct (set_choose_L s Hs0) as [z Hz].
    assert (Hc : exists k, contributes vgs vs k z).
    { exists k. apply Hmem. exists s. split; [apply list_elem_of_here|exact Hz]. }
    apply (contributes_overlapping _ _ _ _ Hs) in Hc as (v & Hv & _ & Ho).
    rewrite Forall_forall in Hall. exact (Hall v Hv Ho).
Qed.

Lemma make_items_unticked (m : overlaps) :
  Forall (fun it => selected it = false) (make_item <$> m).
Proof.
  apply Forall_forall. intros it (e & -> & _)%list_elem_of_fmap.
  apply make_item_selected.
Qed.

Lemma select_unticked ctx obj :
  active_object ctx = Some obj ->
  obj_type obj = "MESH" ->
  Forall (fun it => selected it = false) (vertex_overlap_list ctx) ->
  select_overlap_vertices ctx
  = {| context := ctx; status := CANCELLED;
       reports :=
         [(WARNING,
           match vertex_overlap_list ctx with
           | [] => msg_no_overlaps
           | _ => msg_nothing_selected
           end)];
       log := [] |}.
Proof.
  intros Ha Ht Hall. unfold select_overlap_vertices.
  rewrite (proj2 (validate_inl ctx "MESH" obj) (conj Ha Ht)).
  destruct (vertex_overlap_list ctx) as [|it l]; [reflexivity|].
  now rewrite (collect_none_selected _ Hall).
Qed.

(** X4.  Analyse, tick every entry, select: the selection finishes
    exactly when some vertex of the mesh has two active groups, and then a
    face ends selected if and only if its loop holds the index of such a
    vertex. *)
Theorem select_all_overlapping_faces ctx obj :
  active_object ctx = Some obj ->
  status (check_vertex_overlaps ctx) = FINISHED ->
  (status (select_overlap_vertices
             (context (select_all_overlaps
                         (context (check_vertex_overlaps ctx))))) = FINISHED
   <-> exists v, v ∈ vertices obj /\ overlapping v)
  /\ (status (select_overlap_vertices
                (context (select_all_overlaps
                            (context (check_vertex_overlaps ctx))))) = FINISHED ->
      exists obj',
        active_object
          (context (select_overlap_vertices
                      (context (select_all_overlaps
                                  (context (check_vertex_overlaps ctx))))))
        = Some obj'
        /\ forall i f, faces obj !! i = Some f ->
             exists f',
               faces obj' !! i = Some f'
               /\ f_verts f' = f_verts f
               /\ (f_select f' = true
                   <-> exists v, v ∈ vertices obj /\ overlapping v
                                 /\ v_index v ∈ f_verts f)).
Proof.
  intros Ha Hf.
  destruct (check_finished ctx Hf) as (obj0 & m & Ha0 & Ht & _ & Hs & Hl).
  rewrite Ha in Ha0. inversion Ha0; subst obj0. clear Ha0.
  set (c2 := context (select_all_overlaps (context (check_vertex_overlaps ctx)))).
  assert (Ha2 : active_object c2 = Some obj).
  { subst c2. cbn [select_all_overlaps context set_overlap_list active_object].
    now rewrite check_keeps_object. }
  assert (Hl2 : vertex_overlap_list c2 = set_selected true <$> (make_item <$> m)).
  { subst c2.
    cbn [select_all_overlaps context set_overlap_list vertex_overlap_list].
    now rewrite Hl. }
  assert (Hix : forall z, z ∈ indices (collect (vertex_overlap_list c2))
                  <-> exists v, v ∈ vertices obj /\ v_index v = z /\ overlapping v).
  { intros z. rewrite Hl2, all_ticked_indices.
    rewrite <- (contributes_overlapping _ _ _ z Hs).
    destruct (scan_table _ _ _ Hs) as (_ & _ & Hmem).
    split; intros [k Hk]; exists k; now apply Hmem. }
  destruct (select_outcome c2 obj Ha2 Ht) as [Hcancel Hfin].
  destruct (decide (indices (collect (vertex_overlap_list c2)) = ∅)) as [He|Hne].
  - destruct (Hcancel He) as [Hst _]. split.
    + split; [congruence|]. intros (v & Hv & Ho). exfalso.
      assert (Hz : v_index v ∈ indices (collect (vertex_overlap_list c2)))
        by (apply Hix; eauto).
      rewrite He in Hz. now apply not_elem_of_empty in Hz.
    + congruence.
  - rewrite (Hfin Hne). cbv zeta. cbn [status context active_object]. split.
    + split; [|reflexivity]. intros _.
      destruct (set_choose_L _ Hne) as [z Hz].
      apply Hix in Hz as (v & Hv & _ & Ho). eauto.
    + intros _. eexists. split; [reflexivity|]. cbn [faces]. intros i f Hi.
      destruct (selection_lookup (indices (collect (vertex_overlap_list c2)))
                  _ i f Hi) as (f' & Hf' & Hv & _ & Hsel).
      exists f'. split; [exact Hf'|]. split; [exact Hv|].
      rewrite Hsel, touches_spec. split.
      * intros (z & Hz & Hzi). apply Hix in Hzi as (v & Hv' & <- & Ho). eauto.
      * intros (v & Hv' & Ho & Hz). exists (v_index v). split; [exact Hz|].
        apply Hix. eauto.
Qed.

Lemma select_all_overlapping_faces_witness :
  (status (select_overlap_vertices
             (context (select_all_overlaps
                         (context (check_vertex_overlaps Scenario.ctx))))) = FINISHED
   <-> exists v, v ∈ vertices Scenario.mesh /\ overlapping v)
  /\ (status (select_overlap_vertices
                (context (select_all_overlaps
                            (context (check_vertex_overlaps Scenario.ctx))))) = FINISHED ->
      exists obj',
        active_object
          (context (select_overlap_vertices
                      (context (select_all_overlaps
                                  (context (check_vertex_overlaps Scenario.ctx))))))
        = Some obj'
        /\ forall i f, faces Scenario.mesh !! i = Some f ->
             exists f',
               faces obj' !! i = Some f'
               /\ f_verts f' = f_verts f
               /\ (f_select f' = true
                   <-> exists v, v ∈ vertices Scenario.mesh /\ overlapping v
                                 /\ v_index v ∈ f_verts f)).
Proof.
  apply (select_all_overlapping_faces Scenario.ctx Scenario.mesh).
  - reflexivity.
  - vm_compute. reflexivity.
Defined.

(** X5.  The table of a finished analysis has no entry ticked, so a
    selection run on it straight away marks no face: it is cancelled,
    with the warning for an empty table when no vertex has two active
    groups and the warning for nothing ticked otherwise. *)
Theorem fresh_table_selects_no_face ctx obj :
  active_object ctx = Some obj ->
  status (check_vertex_overlaps ctx) = FINISHED ->
  select_overlap_vertices (context (check_vertex_overlaps ctx))
  = {| context := context (check_vertex_overlaps ctx);
       status := CANCELLED;
       reports :=
         [(WARNING,
           if decide (Exists overlapping (vertices obj))
           then msg_nothing_selected else msg_no_overlaps)];
       log := [] |}.
Proof.
  intros Ha Hf.
  destruct (check_finished ctx Hf) as (obj0 & m & Ha0 & Ht & _ & Hs & Hl).
  rewrite Ha in Ha0. inversion Ha0; subst obj0. clear Ha0.
  rewrite (select_unticked _ obj).
  - rewrite Hl. pose proof (table_empty_iff _ _ _ Hs) as Hempty.
    destruct (decide (Exists overlapping (vertices obj))) as [Hex|Hno].
    + destruct m as [|e m]; [|reflexivity]. exfalso.
      apply Exists_exists in Hex as (v & Hv & Ho).
      pose proof (proj1 Hempty eq_refl) as Hall.
      rewrite Forall_forall in Hall. exact (Hall v Hv Ho).
    + rewrite (proj2 Hempty); [reflexivity|].
      apply Forall_forall. intros v Hv Ho. apply Hno, Exists_exists. eauto.
  - now rewrite check_keeps_object.
  - exact Ht.
  - rewrite Hl. apply make_items_unticked.
Qed.

Lemma fresh_table_selects_no_face_witness :
  select_overlap_vertices (context (check_vertex_overlaps Scenario.ctx))
  = {| context := context (check_vertex_overlaps Scenario.ctx);
       status := CANCELLED;
       reports :=
         [(WARNING,
           if decide (Exists overlapping (vertices Scenario.mesh))
           then msg_nothing_selected else msg_no_overlaps)];
       log := [] |}.
Proof.
  apply (fresh_table_selects_no_face Scenario.ctx Scenario.mesh).
  - reflexivity.
  - vm_compute. reflexivity.
Defined.

(** X6.  After "Deselect All", whatever was ticked before, a selection
    marks no face: it is cancelled with the warning for nothing ticked,
    or for an empty table, and logs nothing. *)
Theorem deselect_all_then_select ctx obj :
  active_object ctx = Some obj ->
  obj_type obj = "MESH" ->
  context (deselect_all_overlaps ctx)
  = set_overlap_list (set_selected false <$> vertex_overlap_list ctx) ctx
  /\ select_overlap_vertices (context (deselect_all_overlaps ctx))
     = {| context := context (deselect_all_overlaps ctx);
          status := CANCELLED;
          reports :=
            [(WARNING,
              match vertex_overlap_list ctx with
              | [] => msg_no_overlaps
              | _ => msg_nothing_selected
              end)];
          log := [] |}.
Proof.
  intros Ha Ht. split; [reflexivity|].
  rewrite (select_unticked _ obj); [| exact Ha | exact Ht |].
  - cbn [deselect_all_overlaps context set_overlap_list vertex_overlap_list].
    now destruct (vertex_overlap_list ctx).
  - cbn [deselect_all_overlaps context set_overlap_list vertex_overlap_list].
    apply Forall_forall. now intros it (it' & -> & _)%list_elem_of_fmap.
Qed.

Lemma deselect_all_then_select_witness :
  context (deselect_all_overlaps Scenario.ticked)
  = set_overlap_list
      (set_selected false <$> vertex_overlap_list Scenario.ticked)
      Scenario.ticked
  /\ select_overlap_vertices (context (deselect_all_overlaps Scenario.ticked))
     = {| context := context (deselect_all_overlaps Scenario.ticked);
          status := CANCELLED;
          reports :=
            [(WARNING,
              match vertex_overlap_list Scenario.ticked with
              | [] => msg_no_overlaps
              | _ => msg_nothing_selected
              end)];
          log := [] |}.
Proof.
  apply (deselect_all_then_select Scenario.ticked Scenario.mesh); reflexivity.
Defined.

End Pipeline.

Section Reports.

Lemma select_touching_selected ixs (fs : list BMFace) :
  Forall (fun f => f_select f = false) fs ->
  Z.of_nat (length (filter (fun f => f_select f = true)
                           (select_touching ixs fs).1))
  = (select_touching ixs fs).2.
Proof.
  induction 1 as [|f fs Hf _ IH]; [reflexivity|]. simpl.
  destruct (select_touching ixs fs) as [r n]. simpl in IH.
  destruct (touches ixs f); cbn [fst snd]; rewrite filter_cons.
  - rewrite decide_True by reflexivity. cbn [length]. lia.
  - rewrite decide_False by (rewrite Hf; discriminate). exact IH.
Qed.

Lemma select_finished_indices ctx obj :
  active_object ctx = Some obj ->
  obj_type obj = "MESH" ->
  status (select_overlap_vertices ctx) = FINISHED ->
  indices (collect (vertex_overlap_list ctx)) ≠ ∅.
Proof.
  intros Ha Ht Hf He.
  destruct (select_outcome ctx obj Ha Ht) as [Hcancel _].
  destruct (Hcancel He) as [Hst _]. congruence.
Qed.

(** X7.  On a table whose ticked texts are plain, the message of a
    finished selection counts what is there: the faces that end selected,
    the distinct vertex indices read from the ticked entries, and the
    ticked entries. *)
Theorem select_report_counts ctx obj :
  active_object ctx = Some obj ->
  obj_type obj = "MESH" ->
  Forall (fun it => selected it = true -> plain_text (verts it))
         (vertex_overlap_list ctx) ->
  status (select_overlap_vertices ctx) = FINISHED ->
  exists obj',
    active_object (context (select_overlap_vertices ctx)) = Some obj'
    /\ reports (select_overlap_vertices ctx)
       = [(INFO,
           "Selected "
           ++ Py.str (Z.of_nat (length (filter (fun f => f_select f = true)
                                               (faces obj'))))
           ++ " faces from "
           ++ Py.str (Z.of_nat
                        (size (⋃ ((fun it => if selected it then decoded it
                                             else (∅ : gset Z))
                                    <$> vertex_overlap_list ctx))))
           ++ " vertices ("
           ++ Py.str (Z.of_nat (length (filter (fun it => selected it = true)
                                               (vertex_overlap_list ctx))))
           ++ " overlap groups)")].
Proof.
  intros Ha Ht _ Hf.
  pose proof (select_finished_indices ctx obj Ha Ht Hf) as Hne.
  destruct (select_outcome ctx obj Ha Ht) as [_ Hfin].
  rewrite (Hfin Hne). cbv zeta. cbn [context active_object reports].
  eexists. split; [reflexivity|]. cbn [faces].
  rewrite select_touching_selected.
  - now rewrite collect_indices, collect_selected_count.
  - apply Forall_forall. now intros f (f0 & -> & _)%list_elem_of_fmap.
Qed.

(** The theorem at a table of two ticked entries, the first of which
    starts with the separator FS, which [strip] removes and [int] does
    not skip: that entry is not read, and one vertex is counted. *)
Lemma select_report_counts_witness :
  reports (select_overlap_vertices Separator.ctx)
  = [(INFO, "Selected 2 faces from 1 vertices (2 overlap groups)")]
  /\ exists obj',
       active_object (context (select_overlap_vertices Separator.ctx)) = Some obj'
       /\ reports (select_overlap_vertices Separator.ctx)
          = [(INFO,
              "Selected "
              ++ Py.str (Z.of_nat (length (filter (fun f => f_select f = true)
                                                  (faces obj'))))
              ++ " faces from "
              ++ Py.str (Z.of_nat
                           (size (⋃ ((fun it => if selected it then decoded it
                                                else (∅ : gset Z))
                                       <$> vertex_overlap_list Separator.ctx))))
              ++ " vertices ("
              ++ Py.str (Z.of_nat (length (filter (fun it => selected it = true)
                                                  (vertex_overlap_list
                                                     Separator.ctx))))
              ++ " overlap groups)")].
Proof.
  split; [vm_compute; reflexivity|].
  apply (select_report_counts Separator.ctx Scenario.mesh).
  - reflexivity.
  - reflexivity.
  - repeat first
      [ apply List.Forall_nil
      | apply List.Forall_cons;
        [intros _; split; [vm_compute; reflexivity|vm_compute; lia]|] ].
  - vm_compute. reflexivity.
Defined.

Lemma not_Forall_iff_Exists {A : Type} (P : A -> Prop)
    `{!forall x, Decision (P x)} (l : list A) :
  ~ Forall P l <-> Exists (fun x => ~ P x) l.
Proof.
  induction l as [|x l IH].
  - split; [intros Hn; destruct Hn; constructor|]. intros Hn. inversion Hn.
  - rewrite Forall_cons, Exists_cons, <- IH.
    destruct (decide (P x)), (decide (Forall P l)); tauto.
Qed.

(** The loop over the vertices fails exactly on a membership of positive
    weight whose group index the object does not have. *)
Lemma scan_none_iff vgs vs m :
  scan vgs vs m = None
  <-> Exists (fun v =>
                Exists (fun g => positive g /\ (length vgs <= group g)%nat)
                       (v_groups v))
             vs.
Proof.
  rewrite eq_None_not_Some, scan_total, not_Forall_iff_Exists.
  apply Exists_proper; [|reflexivity]. intros v.
  rewrite not_Forall_iff_Exists.
  apply Exists_proper; [|reflexivity]. intros g.
  - destruct (decide (positive g)) as [Hp|Hp],
      (decide (group g < length vgs)%nat) as [Hlt|Hge]; split; intros Hx;
      try tauto; try lia.
    split; [exact Hp|lia].
  - intros g. apply _.
  - intros v. apply _.
Qed.

(** X8.  On a mesh object the analysis raises exactly when the object
    has vertex groups and some membership of positive weight names a
    group index that does not exist; the stored table has then been
    cleared and nothing was reported. *)
Theorem check_raises ctx obj :
  active_object ctx = Some obj ->
  (status (check_vertex_overlaps ctx) = RAISED
   <-> obj_type obj = "MESH"
       /\ vertex_groups obj <> []
       /\ Exists (fun v =>
                    Exists (fun g => positive g
                                     /\ (length (vertex_groups obj) <= group g)%nat)
                           (v_groups v))
                 (vertices obj))
  /\ (status (check_vertex_overlaps ctx) = RAISED ->
      vertex_overlap_list (context (check_vertex_overlaps ctx)) = []
      /\ reports (check_vertex_overlaps ctx) = []).
Proof.
  intros Ha. unfold check_vertex_overlaps.
  destruct (validate_active_object ctx "MESH") as [obj0|e] eqn:Hv.
  - apply validate_inl in Hv as [Ha0 Ht].
    rewrite Ha in Ha0. inversion Ha0; subst obj0. clear Ha0.
    destruct (vertex_groups obj) as [|g gs] eqn:Hg.
    + split; [|discriminate]. split; [discriminate|]. intros (_ & H & _).
      congruence.
    + destruct (scan (g :: gs) (vertices obj) []) as [m|] eqn:Hs.
      * split; [|discriminate]. split; [discriminate|]. intros (_ & _ & Hex).
        apply (scan_none_iff _ _ []) in Hex. congruence.
      * split; [|intros _; split; reflexivity]. split; [|reflexivity].
        intros _. split; [exact Ht|]. split; [discriminate|].
        now apply (scan_none_iff _ _ []).
  - split; [|discriminate]. split; [discriminate|]. intros (Ht & _).
    assert (Hinl : validate_active_object ctx "MESH" = inl obj)
      by (apply validate_inl; auto).
    congruence.
Qed.

Lemma check_raises_witness :
  (status (check_vertex_overlaps MissingGroup.ctx) = RAISED
   <-> obj_type MissingGroup.mesh = "MESH"
       /\ vertex_groups MissingGroup.mesh <> []
       /\ Exists (fun v =>
                    Exists (fun g => positive g
                                     /\ (length (vertex_groups MissingGroup.mesh)
                                         <= group g)%nat)
                           (v_groups v))
                 (vertices MissingGroup.mesh))
  /\ (status (check_vertex_overlaps MissingGroup.ctx) = RAISED ->
      vertex_overlap_list (context (check_vertex_overlaps MissingGroup.ctx)) = []
      /\ reports (check_vertex_overlaps MissingGroup.ctx) = []).
Proof.
  apply (check_raises MissingGroup.ctx MissingGroup.mesh). reflexivity.
Defined.

(** X9.  The message of a finished analysis: the number of entries of
    the new table if some vertex has two active groups, and the notice
    that no overlapping weights were found, with an empty table,
    otherwise. *)
Theorem check_report ctx obj :
  active_object ctx = Some obj ->
  status (check_vertex_overlaps ctx) = FINISHED ->
  reports (check_vertex_overlaps ctx)
  = [(INFO,
      if decide (Exists overlapping (vertices obj))
      then "Found "
           ++ Py.str (Z.of_nat (length (vertex_overlap_list
                                          (context (check_vertex_overlaps ctx)))))
           ++ " overlap pairs"
      else "No overlapping vertex weights found")]
  /\ (vertex_overlap_list (context (check_vertex_overlaps ctx)) = []
      <-> ~ Exists overlapping (vertices obj)).
Proof.
  intros Ha Hf.
  destruct (check_finished ctx Hf) as (obj0 & m & Ha0 & Ht & Hg & Hs & Hl).
  rewrite Ha in Ha0. inversion Ha0; subst obj0. clear Ha0.
  assert (Hempty : m = [] <-> ~ Exists overlapping (vertices obj)).
  { rewrite (table_empty_iff _ _ _ Hs). split.
    - intros Hall (v & Hv & Ho)%Exists_exists.
      rewrite Forall_forall in Hall. exact (Hall v Hv Ho).
    - intros Hno. apply Forall_forall. intros v Hv Ho.
      apply Hno, Exists_exists. eauto. }
  split.
  - rewrite Hl. clear Hl Hf. unfold check_vertex_overlaps.
    rewrite (proj2 (validate_inl ctx "MESH" obj) (conj Ha Ht)).
    destruct (vertex_groups obj) as [|g gs] eqn:Hgs; [congruence|].
    rewrite Hs. cbn [reports]. f_equal. f_equal.
    destruct (decide (Exists overlapping (vertices obj))) as [Hex|Hno].
    + rewrite bool_decide_eq_false_2; [reflexivity|].
      intros Hlen. apply length_zero_iff_nil in Hlen.
      apply fmap_nil_inv in Hlen. now apply Hempty in Hlen.
    + rewrite bool_decide_eq_true_2; [reflexivity|].
      now rewrite (proj2 Hempty Hno).
  - rewrite Hl. rewrite <- Hempty. split.
    + apply fmap_nil_inv.
    + now intros ->.
Qed.

Lemma check_report_witness :
  reports (check_vertex_overlaps Scenario.ctx)
  = [(INFO,
      if decide (Exists overlapping (vertices Scenario.mesh))
      then "Found "
           ++ Py.str (Z.of_nat (length (vertex_overlap_list
                                          (context (check_vertex_overlaps
                                                      Scenario.ctx)))))
           ++ " overlap pairs"
      else "No overlapping vertex weights found")]
  /\ (vertex_overlap_list (context (check_vertex_overlaps Scenario.ctx)) = []
      <-> ~ Exists overlapping (vertices Scenario.mesh)).
Proof.
  apply (check_report Scenario.ctx Scenario.mesh).
  - reflexivity.
  - vm_compute. reflexivity.
Defined.

(** X16.  Whatever its outcome, the selection leaves the overlap table,
    the vertex groups, the vertices with their weights, and the vertex
    loop of every face as they were: all it may change on the object are
    its mode, its selection state and the flags of its faces. *)
Theorem select_keeps_data ctx obj :
  active_object ctx = Some obj ->
  vertex_overlap_list (context (select_overlap_vertices ctx))
  = vertex_overlap_list ctx
  /\ exists obj',
       active_object (context (select_overlap_vertices ctx)) = Some obj'
       /\ obj_type obj' = obj_type obj
       /\ vertex_groups obj' = vertex_groups obj
       /\ vertices obj' = vertices obj
       /\ f_verts <$> faces obj' = f_verts <$> faces obj.
Proof.
  intros Ha.
  assert (Hsame : context (select_overlap_vertices ctx) = ctx ->
            vertex_overlap_list (context (select_overlap_vertices ctx))
            = vertex_overlap_list ctx
            /\ exists obj',
                 active_object (context (select_overlap_vertices ctx)) = Some obj'
                 /\ obj_type obj' = obj_type obj
                 /\ vertex_groups obj' = vertex_groups obj
                 /\ vertices obj' = vertices obj
                 /\ f_verts <$> faces obj' = f_verts <$> faces obj).
  { intros ->. split; [reflexivity|]. exists obj. auto. }
  destruct (decide (obj_type obj = "MESH")) as [Ht|Ht].
  - destruct (select_outcome ctx obj Ha Ht) as [Hcancel Hfin].
    destruct (decide (indices (collect (vertex_overlap_list ctx)) = ∅))
      as [He|Hne].
    + apply Hsame. now destruct (Hcancel He).
    + rewrite (Hfin Hne). cbv zeta.
      cbn [context vertex_overlap_list active_object].
      split; [reflexivity|]. eexists. split; [reflexivity|].
      cbn [obj_type vertex_groups vertices faces]. repeat split.
      rewrite select_touching_faces, <- !list_fmap_compose.
      apply list_fmap_ext. intros i f _. cbn [compose].
      now destruct (touches _ _).
  - apply Hsame. unfold select_overlap_vertices, validate_active_object.
    rewrite Ha. now rewrite bool_decide_eq_true_2.
Qed.

Lemma select_keeps_data_witness :
  vertex_overlap_list (context (select_overlap_vertices Scenario.ticked))
  = vertex_overlap_list Scenario.ticked
  /\ exists obj',
       active_object (context (select_overlap_vertices Scenario.ticked))
       = Some obj'
       /\ obj_type obj' = obj_type Scenario.mesh
       /\ vertex_groups obj' = vertex_groups Scenario.mesh
       /\ vertices obj' = vertices Scenario.mesh
       /\ f_verts <$> faces obj' = f_verts <$> faces Scenario.mesh.
Proof.
  apply (select_keeps_data Scenario.ticked Scenario.mesh). reflexivity.
Defined.

End Reports.

Section Order.

Implicit Types (m : overlaps) (k : string * string) (i : Z).

Lemma grows_refl m : grows m m.
Proof. intros j k s Hj. exists s. split; [exact Hj|reflexivity]. Qed.

Lemma grows_trans m1 m2 m3 : grows m1 m2 -> grows m2 m3 -> grows m1 m3.
Proof.
  intros H12 H23 j k s Hj.
  destruct (H12 j k s Hj) as (s2 & Hj2 & Hs2).
  destruct (H23 j k s2 Hj2) as (s3 & Hj3 & Hs3).
  exists s3. split; [exact Hj3|]. set_solver.
Qed.

(** Adding an index leaves every entry where it is. *)
Lemma add_overlap_grows k i m : grows m (add_overlap k i m).
Proof.
  induction m as [|[k0 s0] m IH]; intros j k' s Hj; [discriminate|].
  cbn [add_overlap]. destruct (decide (k0 = k)) as [->|Hne].
  - destruct j as [|j]; simpl in Hj |- *.
    + inversion Hj; subst. exists (s ∪ {[ i ]}). split; [reflexivity|set_solver].
    + exists s. split; [exact Hj|reflexivity].
  - destruct j as [|j]; simpl in Hj |- *.
    + exists s. split; [exact Hj|reflexivity].
    + apply IH, Hj.
Qed.

Lemma fold_add_grows (ks : list (string * string)) i m :
  grows m (foldl (fun m key => add_overlap key i m) m ks).
Proof.
  revert m. induction ks as [|k ks IH]; intros m; simpl; [apply grows_refl|].
  eapply grows_trans; [apply add_overlap_grows|apply IH].
Qed.

Lemma scan_grows vgs vs m m' : scan vgs vs m = Some m' -> grows m m'.
Proof.
  revert m. induction vs as [|v vs IH]; intros m; simpl.
  - intros [= <-]. apply grows_refl.
  - destruct (active_names vgs v) as [names|]; [|discriminate]. intros Hs.
    eapply grows_trans; [|apply (IH _ Hs)].
    rewrite accumulate_fold. apply fold_add_grows.
Qed.

Lemma scan_app vgs vs1 vs2 m :
  scan vgs (vs1 ++ vs2) m = scan vgs vs1 m ≫= scan vgs vs2.
Proof.
  revert m. induction vs1 as [|v vs1 IH]; intros m; simpl; [reflexivity|].
  destruct (active_names vgs v); [apply IH|reflexivity].
Qed.

Lemma decoded_fresh_item (k : string * string) (s : gset Z) :
  decoded (make_item (k, s)) = s.
Proof.
  rewrite (decoded_render _ (Py.sorted_int s)).
  - apply set_eq. intros z. now rewrite elem_of_list_to_set, sorted_int_elem_of.
  - now destruct k.
Qed.

(** X10.  Entries keep the place of their first encounter: when further
    vertices are appended to a mesh, the analysis of the longer mesh
    shows every entry of the shorter one at the same position and under
    the same label, with at least the same vertex indices and count; new
    pairs only follow. *)
Theorem table_grows_in_place ctx1 ctx2 obj1 obj2 (more : list MeshVertex) :
  active_object ctx1 = Some obj1 ->
  active_object ctx2 = Some obj2 ->
  vertex_groups obj2 = vertex_groups obj1 ->
  vertices obj2 = (vertices obj1 ++ more)%list ->
  status (check_vertex_overlaps ctx1) = FINISHED ->
  status (check_vertex_overlaps ctx2) = FINISHED ->
  forall j it1,
    vertex_overlap_list (context (check_vertex_overlaps ctx1)) !! j = Some it1 ->
    exists it2,
      vertex_overlap_list (context (check_vertex_overlaps ctx2)) !! j = Some it2
      /\ groups it2 = groups it1
      /\ count it1 <= count it2
      /\ decoded it1 ⊆ decoded it2.
Proof.
  intros Ha1 Ha2 Hg Hv Hf1 Hf2 j it1 Hj.
  destruct (check_finished ctx1 Hf1) as (o1 & m1 & Ha1' & _ & _ & Hs1 & Hl1).
  destruct (check_finished ctx2 Hf2) as (o2 & m2 & Ha2' & _ & _ & Hs2 & Hl2).
  rewrite Ha1 in Ha1'. inversion Ha1'; subst o1. clear Ha1'.
  rewrite Ha2 in Ha2'. inversion Ha2'; subst o2. clear Ha2'.
  rewrite Hg, Hv, scan_app, Hs1 in Hs2. simpl in Hs2.
  pose proof (scan_grows _ _ _ _ Hs2) as Hgrow.
  rewrite Hl1, list_lookup_fmap in Hj.
  destruct (m1 !! j) as [[k s]|] eqn:Hm1; [|discriminate].
  cbn [fmap option_fmap option_map] in Hj. apply (inj Some) in Hj. subst it1.
  destruct (Hgrow j k s Hm1) as (s' & Hm2 & Hsub).
  exists (make_item (k, s')). rewrite Hl2, list_lookup_fmap, Hm2.
  split; [reflexivity|]. split; [now destruct k|]. split.
  - rewrite !make_item_count. apply Nat2Z.inj_le, subseteq_size, Hsub.
  - now rewrite !decoded_fresh_item.
Qed.

Lemma table_grows_in_place_witness :
  vertices Scenario.mesh
  = (vertices FirstVertex.mesh ++ [Scenario.v1; Scenario.v2; Scenario.v3])%list
  /\ forall j it1,
       vertex_overlap_list (context (check_vertex_overlaps FirstVertex.ctx)) !! j
       = Some it1 ->
       exists it2,
         vertex_overlap_list (context (check_vertex_overlaps Scenario.ctx)) !! j
         = Some it2
         /\ groups it2 = groups it1
         /\ count it1 <= count it2
         /\ decoded it1 ⊆ decoded it2.
Proof.
  split; [reflexivity|].
  apply (table_grows_in_place FirstVertex.ctx Scenario.ctx
           FirstVertex.mesh Scenario.mesh
           [Scenario.v1; Scenario.v2; Scenario.v3]).
  - reflexivity.
  - reflexivity.
  - reflexivity.
  - reflexivity.
  - vm_compute. reflexivity.
  - vm_compute. reflexivity.
Defined.

End Order.

Section Unused.

Lemma uses_spec (k : nat) (v : MeshVertex) :
  uses k v = true <-> exists g, g ∈ v_groups v /\ group g = k /\ positive g.
Proof.
  unfold uses. rewrite existsb_exists. split.
  - intros (g & Hg & Hb). apply andb_true_iff in Hb as [Hk Hw].
    exists g. rewrite list_elem_of_In. apply Nat.eqb_eq in Hk. auto.
  - intros (g & Hg & Hk & Hw). exists g. rewrite <- list_elem_of_In.
    split; [exact Hg|]. apply andb_true_iff. split; [now apply Nat.eqb_eq|exact Hw].
Qed.

Lemma group_used_iff (k : nat) (vs : list MeshVertex) :
  existsb (uses k) vs = true
  <-> exists v g, v ∈ vs /\ g ∈ v_groups v /\ group g = k /\ positive g.
Proof.
  rewrite existsb_exists. split.
  - intros (v & Hv & Hu). apply uses_spec in Hu as (g & Hg & Hk & Hw).
    exists v, g. rewrite list_elem_of_In. auto.
  - intros (v & g & Hv & Hg & Hk & Hw). exists v. rewrite <- list_elem_of_In.
    split; [exact Hv|]. apply uses_spec. eauto.
Qed.

Lemma used_not_listed obj v g :
  v ∈ vertices obj -> g ∈ v_groups v -> positive g ->
  group g ∉ unused_groups obj.
Proof.
  intros Hv Hg Hw [Hf _]%list_elem_of_filter.
  assert (Hu : existsb (uses (group g)) (vertices obj) = true)
    by (apply group_used_iff; eauto 10).
  congruence.
Qed.

(** Every active name of a vertex is the name of one of its memberships
    of positive weight. *)
Lemma active_names_elem vgs v names (a : string) :
  active_names vgs v = Some names -> a ∈ names ->
  exists g, g ∈ v_groups v /\ positive g /\ vgs !! group g = Some a.
Proof.
  intros Hn [j Hj]%list_elem_of_lookup. unfold active_names in Hn.
  apply mapM_Some in Hn.
  destruct (Forall2_lookup_r _ _ _ _ _ Hn Hj) as (g & Hg & Hlook).
  apply list_elem_of_lookup_2, list_elem_of_filter in Hg as [Hw Hg].
  eauto.
Qed.

(** X11.  The groups found unused are exactly the groups of the object
    in which no vertex has a weight above zero: a group assigned to
    vertices only with weight 0.0 is found unused, like an empty one.
    They are listed once each, in ascending order of their index. *)
Theorem unused_groups_exact (obj : Object) :
  (forall k,
     k ∈ unused_groups obj
     <-> (k < length (vertex_groups obj))%nat
         /\ forall v g, v ∈ vertices obj -> g ∈ v_groups v -> group g = k ->
                        ~ positive g)
  /\ StronglySorted lt (unused_groups obj).
Proof.
  split.
  - intros k. unfold unused_groups. rewrite list_elem_of_filter, elem_of_seq.
    split.
    + intros [Hf Hk]. split; [lia|]. intros v g Hv Hg Hgk Hw.
      assert (Hu : existsb (uses k) (vertices obj) = true)
        by (apply group_used_iff; eauto 10).
      congruence.
    + intros [Hk Hno]. split; [|lia].
      destruct (existsb (uses k) (vertices obj)) eqn:Hu; [|reflexivity].
      apply group_used_iff in Hu as (v & g & Hv & Hg & Hgk & Hw).
      exfalso. exact (Hno v g Hv Hg Hgk Hw).
  - unfold unused_groups. generalize 0%nat.
    induction (length (vertex_groups obj)) as [|n IH]; intros start;
      [constructor|].
    cbn [seq]. rewrite filter_cons. destruct (decide _).
    + constructor; [apply IH|]. apply Forall_forall.
      intros k [_ Hk]%list_elem_of_filter. apply elem_of_seq in Hk. lia.
    + apply IH.
Qed.

(** X12.  No group that takes part in a reported overlap is found
    unused: the two names of every entry of a finished analysis are names
    of groups outside [unused_groups]. *)
Theorem overlap_groups_are_used ctx obj item :
  active_object ctx = Some obj ->
  status (check_vertex_overlaps ctx) = FINISHED ->
  item ∈ vertex_overlap_list (context (check_vertex_overlaps ctx)) ->
  exists i j g1 g2,
    groups item = g1 ++ " + " ++ g2
    /\ vertex_groups obj !! i = Some g1
    /\ vertex_groups obj !! j = Some g2
    /\ (i ∉ unused_groups obj)
    /\ (j ∉ unused_groups obj).
Proof.
  intros Ha Hf Hin.
  destruct (check_table ctx obj Ha Hf) as (m & Hs & Hl & Hnd & Hsets).
  rewrite Hl in Hin. apply list_elem_of_fmap in Hin as ([[g1 g2] s] & -> & He).
  destruct (Hsets _ _ He) as [Hne Hz].
  destruct (set_choose_L s Hne) as [z Hzs].
  apply Hz in Hzs as (v & names & Hv & Hn & Hp & _).
  apply vertex_pairs_elem_of in Hp as [H1 H2].
  destruct (active_names_elem _ _ _ _ Hn H1) as (a & Ha1 & Hw1 & Hl1).
  destruct (active_names_elem _ _ _ _ Hn H2) as (b & Hb1 & Hw2 & Hl2).
  exists (group a), (group b), g1, g2.
  split; [reflexivity|]. split; [exact Hl1|]. split; [exact Hl2|].
  split; eapply used_not_listed; eauto.
Qed.

Lemma overlap_groups_are_used_witness :
  exists i j g1 g2,
    "Hip + Spine" = g1 ++ " + " ++ g2
    /\ vertex_groups Scenario.mesh !! i = Some g1
    /\ vertex_groups Scenario.mesh !! j = Some g2
    /\ (i ∉ unused_groups Scenario.mesh)
    /\ (j ∉ unused_groups Scenario.mesh).
Proof.
  apply (overlap_groups_are_used Scenario.ctx Scenario.mesh
           {| groups := "Hip + Spine"; count := 1; verts := "0";
              selected := false |}).
  - reflexivity.
  - vm_compute. reflexivity.
  - vm_compute. apply list_elem_of_here.
Defined.

End Unused.

Section Unreadable.

Lemma collect_warnings (acc : Collected) (l : list VertexOverlapItem) :
  warnings (foldl collect_item acc l)
  = (warnings acc
     ++ ((fun it => ("Invalid vertex indices in item: " ++ groups it)%string)
           <$> filter (fun it => selected it = true
                                 /\ Py.truthy (Py.strip (verts it)) = true
                                 /\ item_indices (verts it) = None) l))%list.
Proof.
  revert acc. induction l as [|it l IH]; intros acc.
  - simpl. now rewrite app_nil_r.
  - cbn [foldl]. rewrite IH, filter_cons. unfold collect_item.
    destruct (selected it); [|now rewrite decide_False by (intros [? _]; discriminate)].
    destruct (Py.truthy (Py.strip (verts it)));
      [|now rewrite decide_False by (intros (_ & ? & _); discriminate)].
    destruct (item_indices (verts it)) as [ixs|].
    + now rewrite decide_False by (intros (_ & _ & ?); discriminate).
    + rewrite decide_True by auto. cbn [warnings]. rewrite fmap_cons.
      now rewrite <- app_assoc.
Qed.

Lemma select_log ctx obj :
  active_object ctx = Some obj ->
  obj_type obj = "MESH" ->
  vertex_overlap_list ctx <> [] ->
  log (select_overlap_vertices ctx) = warnings (collect (vertex_overlap_list ctx)).
Proof.
  intros Ha Ht Hne. unfold select_overlap_vertices.
  rewrite (proj2 (validate_inl ctx "MESH" obj) (conj Ha Ht)).
  destruct (vertex_overlap_list ctx) as [|it l]; [congruence|].
  repeat case_bool_decide; try reflexivity.
  now destruct (select_touching _ _).
Qed.

(** X13.  On a table whose ticked texts are plain, a ticked entry whose
    text is not blank and holds a piece that is not an integer is dropped
    as a whole and logged: the log of a selection is one warning for each
    such entry, in the order of the table; and when every ticked entry is
    of this kind the selection is cancelled with "No vertices found in
    selected overlap items", the mesh untouched, whatever numbers those
    texts hold besides. *)
Theorem unreadable_entries ctx obj :
  active_object ctx = Some obj ->
  obj_type obj = "MESH" ->
  vertex_overlap_list ctx <> [] ->
  Forall (fun it => selected it = true -> plain_text (verts it))
         (vertex_overlap_list ctx) ->
  log (select_overlap_vertices ctx)
  = ((fun it => "Invalid vertex indices in item: " ++ groups it)
       <$> filter (fun it => selected it = true
                             /\ Py.truthy (Py.strip (verts it)) = true
                             /\ item_indices (verts it) = None)
                  (vertex_overlap_list ctx))
  /\ (Exists (fun it => selected it = true) (vertex_overlap_list ctx) ->
      Forall (fun it => selected it = true -> item_indices (verts it) = None)
             (vertex_overlap_list ctx) ->
      status (select_overlap_vertices ctx) = CANCELLED
      /\ reports (select_overlap_vertices ctx) = [(WARNING, msg_no_vertices)]
      /\ context (select_overlap_vertices ctx) = ctx).
Proof.
  intros Ha Ht Hne _. split.
  - rewrite (select_log ctx obj Ha Ht Hne). unfold collect.
    now rewrite collect_warnings.
  - intros Hex Hall.
    assert (Hix : indices (collect (vertex_overlap_list ctx)) = ∅).
    { rewrite collect_indices. apply leibniz_equiv, empty_union_list.
      apply Forall_forall. intros X (it & -> & Hit)%list_elem_of_fmap.
      rewrite Forall_forall in Hall. specialize (Hall it Hit).
      destruct (selected it); [|reflexivity]. unfold decoded.
      rewrite (Hall eq_refl). now destruct (Py.truthy _). }
    assert (Hcount : selected_count (collect (vertex_overlap_list ctx)) <> 0).
    { intros H0%selected_count_zero.
      apply Exists_exists in Hex as (it & Hit & Hsel).
      rewrite Forall_forall in H0. specialize (H0 it Hit). congruence. }
    unfold select_overlap_vertices.
    rewrite (proj2 (validate_inl ctx "MESH" obj) (conj Ha Ht)).
    destruct (vertex_overlap_list ctx) as [|it l]; [congruence|].
    rewrite bool_decide_eq_false_2 by exact Hcount.
    rewrite bool_decide_eq_true_2 by exact Hix. auto.
Qed.

(** The theorem at a table with one ticked entry whose text starts with
    a number and goes on with a letter, and at the table whose first text
    starts with the separator FS: each run logs the one entry [int]
    refuses. *)
Lemma unreadable_entries_witness :
  (log (select_overlap_vertices Unreadable.ctx)
   = ["Invalid vertex indices in item: Hip + Spine"]
   /\ status (select_overlap_vertices Unreadable.ctx) = CANCELLED
   /\ reports (select_overlap_vertices Unreadable.ctx)
      = [(WARNING, msg_no_vertices)]
   /\ context (select_overlap_vertices Unreadable.ctx) = Unreadable.ctx)
  /\ log (select_overlap_vertices Separator.ctx)
     = ((fun it => "Invalid vertex indices in item: " ++ groups it)
          <$> filter (fun it => selected it = true
                                /\ Py.truthy (Py.strip (verts it)) = true
                                /\ item_indices (verts it) = None)
                     (vertex_overlap_list Separator.ctx))
  /\ log (select_overlap_vertices Separator.ctx)
     = ["Invalid vertex indices in item: Hip + Spine"].
Proof.
  split; [|split; [|vm_compute; reflexivity]].
  - destruct (unreadable_entries Unreadable.ctx Scenario.mesh)
      as [Hlog Hall]; [reflexivity|reflexivity|discriminate| |].
    { repeat first
        [ apply List.Forall_nil
        | apply List.Forall_cons;
          [intros _; split; [vm_compute; reflexivity|vm_compute; lia]|] ]. }
    split; [vm_compute; reflexivity|]. apply Hall.
    + apply Exists_cons_hd. reflexivity.
    + repeat constructor.
  - apply (unreadable_entries Separator.ctx Scenario.mesh);
      [reflexivity|reflexivity|discriminate|].
    repeat first
      [ apply List.Forall_nil
      | apply List.Forall_cons;
        [intros _; split; [vm_compute; reflexivity|vm_compute; lia]|] ].
Defined.

End Unreadable.

Section Size.

Lemma combinations2_length {A : Type} (l : list A) :
  (2 * length (Py.combinations2 l) + length l = length l * length l)%nat.
Proof.
  induction l as [|x l IH]; [reflexivity|].
  cbn [Py.combinations2]. rewrite length_app, length_map. cbn [length]. nia.
Qed.

Lemma combinations2_distinct {A : Type} (l : list A) (a b : A) :
  NoDup l -> (a, b) ∈ Py.combinations2 l -> a <> b.
Proof.
  induction 1 as [|x l Hx _ IH]; [now rewrite elem_of_nil|].
  rewrite elem_of_combinations2_cons. intros [[-> Hb] | H]; [|auto].
  intros ->. contradiction.
Qed.

Lemma pairs_upto_length {A : Type} (l : list A) :
  (2 * length (pairs_upto l) = length l * (length l + 1))%nat.
Proof.
  induction l as [|x l IH]; [reflexivity|].
  cbn [pairs_upto]. rewrite length_app, length_fmap. cbn [length]. nia.
Qed.

Lemma pairs_upto_elem (l : list string) (a b : string) :
  StronglySorted Py.str_le l -> a ∈ l -> b ∈ l -> Py.str_le a b ->
  (a, b) ∈ pairs_upto l.
Proof.
  induction 1 as [|x l Hs IH Hx]; [now rewrite elem_of_nil|].
  intros Ha Hb Hab. cbn [pairs_upto]. rewrite elem_of_app.
  rewrite Forall_forall in Hx.
  assert (Hfirst : a = x -> (a, b) ∈ pair x <$> (x :: l)).
  { intros ->. apply list_elem_of_fmap. eauto. }
  apply elem_of_cons in Ha as [Ha | Ha]; [left; auto|].
  apply elem_of_cons in Hb as [-> | Hb].
  - left. apply Hfirst. apply (anti_symm Py.str_le); auto.
  - right. auto.
Qed.

Lemma active_names_subset vgs v names (a : string) :
  active_names vgs v = Some names -> a ∈ names -> a ∈ vgs.
Proof.
  intros Hn Ha. destruct (active_names_elem _ _ _ _ Hn Ha) as (g & _ & _ & Hl).
  eapply list_elem_of_lookup_2, Hl.
Qed.

(** Distinct group names and one membership per group give a vertex
    distinct active names. *)
Lemma active_names_NoDup vgs v names :
  NoDup vgs ->
  NoDup (group <$> filter positive (v_groups v)) ->
  active_names vgs v = Some names ->
  NoDup names.
Proof.
  intros Hvgs Hgs Hn. unfold active_names in Hn. apply mapM_Some in Hn.
  apply NoDup_alt. intros p q a Hp Hq.
  destruct (Forall2_lookup_r _ _ _ _ _ Hn Hp) as (g1 & Hg1 & Hl1).
  destruct (Forall2_lookup_r _ _ _ _ _ Hn Hq) as (g2 & Hg2 & Hl2).
  assert (Heq : group g1 = group g2)
    by (eapply NoDup_lookup; [exact Hvgs|exact Hl1|exact Hl2]).
  apply (NoDup_lookup _ p q (group g1) Hgs); rewrite list_lookup_fmap.
  - now rewrite Hg1.
  - now rewrite Hg2, Heq.
Qed.

(** X14.  A finished analysis of an object with [G] vertex groups
    reports at most [G (G + 1) / 2] entries; when the group names are
    pairwise different and no vertex has two memberships of positive
    weight in one group, at most [G (G - 1) / 2]. *)
Theorem table_size_bound ctx obj :
  active_object ctx = Some obj ->
  status (check_vertex_overlaps ctx) = FINISHED ->
  (2 * length (vertex_overlap_list (context (check_vertex_overlaps ctx)))
   <= length (vertex_groups obj) * (length (vertex_groups obj) + 1))%nat
  /\ (NoDup (vertex_groups obj) ->
      Forall (fun v => NoDup (group <$> filter positive (v_groups v)))
             (vertices obj) ->
      (2 * length (vertex_overlap_list (context (check_vertex_overlaps ctx)))
       <= length (vertex_groups obj) * (length (vertex_groups obj) - 1))%nat).
Proof.
  intros Ha Hf.
  destruct (check_table ctx obj Ha Hf) as (m & Hs & Hl & Hnd & Hsets).
  rewrite Hl, length_fmap, <- (length_fmap fst m).
  assert (Hkey : forall a b, (a, b) ∈ m.*1 ->
            exists v names, v ∈ vertices obj
              /\ active_names (vertex_groups obj) v = Some names
              /\ (a, b) ∈ vertex_pairs names).
  { intros a b ([k s] & Hk & Hin)%list_elem_of_fmap. simpl in Hk. subst k.
    destruct (Hsets _ _ Hin) as [Hne Hz].
    destruct (set_choose_L s Hne) as [z Hzs].
    apply Hz in Hzs as (v & names & Hv & Hn & Hp & _). eauto. }
  split.
  - set (L := Py.sorted_str (remove_dups (vertex_groups obj))).
    assert (Hsub : m.*1 ⊆+ pairs_upto L).
    { apply NoDup_submseteq; [exact Hnd|]. intros [a b] Hin.
      destruct (Hkey a b Hin) as (v & names & Hv & Hn & Hp).
      destruct (vertex_pairs_elem_of _ _ _ Hp) as [Ha1 Hb1].
      apply pairs_upto_elem.
      - apply sorted_str_sorted.
      - apply sorted_str_elem_of, elem_of_remove_dups.
        eapply active_names_subset; eauto.
      - apply sorted_str_elem_of, elem_of_remove_dups.
        eapply active_names_subset; eauto.
      - eapply vertex_pairs_sorted; eauto. }
    apply submseteq_length in Hsub.
    pose proof (pairs_upto_length L) as HL.
    assert (HLG : (length L <= length (vertex_groups obj))%nat).
    { subst L. rewrite (Permutation_length (sorted_str_perm _)).
      apply submseteq_length, NoDup_submseteq; [apply NoDup_remove_dups|].
      intros x. now rewrite elem_of_remove_dups. }
    nia.
  - intros Hvgs Hmem.
    set (L := Py.sorted_str (vertex_groups obj)).
    assert (Hsub : m.*1 ⊆+ Py.combinations2 L).
    { apply NoDup_submseteq; [exact Hnd|]. intros [a b] Hin.
      destruct (Hkey a b Hin) as (v & names & Hv & Hn & Hp).
      destruct (vertex_pairs_elem_of _ _ _ Hp) as [Ha1 Hb1].
      rewrite Forall_forall in Hmem.
      pose proof (active_names_NoDup _ _ _ Hvgs (Hmem v Hv) Hn) as Hnames.
      assert (Hab : a <> b).
      { eapply combinations2_distinct; [|exact Hp].
        now apply sorted_str_NoDup. }
      destruct (combinations2_either a b L) as [H | H]; auto.
      + apply sorted_str_elem_of. eapply active_names_subset; eauto.
      + apply sorted_str_elem_of. eapply active_names_subset; eauto.
      + exfalso. apply Hab. apply (anti_symm Py.str_le).
        * eapply vertex_pairs_sorted; eauto.
        * eapply combinations2_sorted; [apply sorted_str_sorted|exact H]. }
    apply submseteq_length in Hsub.
    pose proof (combinations2_length L) as HL.
    assert (HLG : length L = length (vertex_groups obj))
      by (subst L; apply Permutation_length, sorted_str_perm).
    nia.
Qed.

Lemma table_size_bound_witness :
  (2 * length (vertex_overlap_list (context (check_vertex_overlaps Scenario.ctx)))
   <= length (vertex_groups Scenario.mesh)
      * (length (vertex_groups Scenario.mesh) + 1))%nat
  /\ (NoDup (vertex_groups Scenario.mesh) ->
      Forall (fun v => NoDup (group <$> filter positive (v_groups v)))
             (vertices Scenario.mesh) ->
      (2 * length (vertex_overlap_list (context (check_vertex_overlaps Scenario.ctx)))
       <= length (vertex_groups Scenario.mesh)
          * (length (vertex_groups Scenario.mesh) - 1))%nat).
Proof.
  apply (table_size_bound Scenario.ctx Scenario.mesh).
  - reflexivity.
  - vm_compute. reflexivity.
Defined.

End Size.

(** ** Runs on concrete inputs *)

(** The scenario of the specification. *)
Example scenario_analyze :
  let o := check_vertex_overlaps Scenario.ctx in
  status o = FINISHED
  /\ vertex_overlap_list (context o) = Scenario.table
  /\ reports o = [(INFO, "Found 2 overlap pairs")].
Proof. vm_compute. auto. Qed.

Example scenario_materialize :
  let o := select_overlap_vertices
             (set_overlap_list (Scenario.tick 0 Scenario.table) Scenario.ctx) in
  status o = FINISHED
  /\ (map f_select ∘ faces) <$> active_object (context o) = Some [true; false]
  /\ reports o = [(INFO, "Selected 1 faces from 1 vertices (1 overlap groups)")].
Proof. vm_compute. auto. Qed.

Example combinations2_abc :
  Py.combinations2 ["a"; "b"; "c"] = [("a", "b"); ("a", "c"); ("b", "c")].
Proof. reflexivity. Qed.

Example sorted_str_ex :
  Py.sorted_str ["Spine"; "Hip"; "Tail"; "Arm"] = ["Arm"; "Hip"; "Spine"; "Tail"].
Proof. vm_compute. reflexivity. Qed.

Example sorted_int_ex :
  Py.sorted_int {[ 12; 3; 7; 3 ]} = [3; 7; 12].
Proof. vm_compute. reflexivity. Qed.

Example int_ex :
  map Py.int [" 12 "; "-3"; "1_000"; "1__0"; "_1"; ""; "x"; "+7"; "007"]
  = [Some 12; Some (-3); Some 1000; None; None; None; None; Some 7; Some 7].
Proof. vm_compute. reflexivity. Qed.

(** The separator FS is white space for [strip] and not for [int]. *)
Example int_separator :
  Py.strip (String (ascii_of_nat 28) "1") = "1"
  /\ Py.int (String (ascii_of_nat 28) "1") = None
  /\ Py.int (String (ascii_of_nat 9) "1 ") = Some 1.
Proof. vm_compute. auto. Qed.

(** A ticked entry that [strip] finds not blank and [int] refuses is
    logged, and the entries after it are still read. *)
Example separator_entry :
  let o := select_overlap_vertices Separator.ctx in
  status o = FINISHED
  /\ reports o = [(INFO, "Selected 2 faces from 1 vertices (2 overlap groups)")]
  /\ log o = ["Invalid vertex indices in item: Hip + Spine"].
Proof. vm_compute. auto. Qed.

Example split_ex :
  map Py.split_comma [""; "1,2"; ",1,"; "12"] = [[""]; ["1"; "2"]; [""; "1"; ""]; ["12"]].
Proof. vm_compute. reflexivity. Qed.

Example str_ex : map Py.str [0; 12; -5] = ["0"; "12"; "-5"].
Proof. vm_compute. reflexivity. Qed.

(** A ticked entry whose text does not parse is logged and skipped; with
    nothing else ticked the selection reports that it found no vertices. *)
Example unreadable_entry :
  let o := select_overlap_vertices
             (set_overlap_list
                [ {| groups := "Hip + Spine"; count := 1; verts := "0,x";
                     selected := true |} ]
                Scenario.ctx) in
  status o = CANCELLED
  /\ reports o = [(WARNING, msg_no_vertices)]
  /\ log o = ["Invalid vertex indices in item: Hip + Spine"]
  /\ context o = set_overlap_list
                   [ {| groups := "Hip + Spine"; count := 1; verts := "0,x";
                        selected := true |} ]
                   Scenario.ctx.
Proof. vm_compute. auto. Qed.

(** A group index that does not exist raises inside the loop, after the
    stored table was cleared. *)
Example missing_group_raises :
  let mesh :=
    {| obj_type := "MESH"; obj_mode := "OBJECT"; obj_select := false;
       vertex_groups := ["Hip"];
       vertices := [ {| v_index := 0; v_groups := [Scenario.w 3 1] |} ];
       faces := [] |} in
  let o := check_vertex_overlaps
             {| active_object := Some mesh;
                vertex_overlap_list := Scenario.table;
                mesh_select_mode := (true, false, false) |} in
  status o = RAISED /\ vertex_overlap_list (context o) = [].
Proof. vm_compute. auto. Qed.

(** A weight of zero, or a negative one, does not make a group active. *)
Example zero_weight_inactive :
  active_names ["Hip"; "Spine"; "Tail"]
    {| v_index := 7;
       v_groups := [Scenario.w 0 0; Scenario.w 1 1; Scenario.w 2 (-1)] |}
  = Some ["Spine"].
Proof. vm_compute. reflexivity. Qed.

Example wrong_type_rejected :
  validate_active_object
    {| active_object :=
         Some {| obj_type := "ARMATURE"; obj_mode := "OBJECT";
                 obj_select := false; vertex_groups := []; vertices := [];
                 faces := [] |};
       vertex_overlap_list := []; mesh_select_mode := (true, false, false) |}
    "MESH"
  = inr "Active object must be a mesh, not armature".
Proof. vm_compute. reflexivity. Qed.

(** Limb names: Valve to Gearbox and back; a name without the space
    before the limb is left alone. *)
Example swap_by_suffix_ex :
  map _swap_by_suffix
      ["Bip01 L Leg1"; "Bip01 R Forearm"; "Bip01 Head"; "L Leg"; "Bip01 L Leg "]
  = ["Bip01 L Calf"; "Bip01 R Arm2"; "Bip01 Head"; "L Leg"; "Bip01 L Leg "].
Proof. vm_compute. reflexivity. Qed.

(** A group assigned only with weight zero, and a group never assigned,
    are both found unused. *)
Example unused_groups_ex : unused_groups ZeroWeight.mesh = [1%nat; 2%nat].
Proof. vm_compute. reflexivity. Qed.

Example select_all_ex :
  let o := select_all_overlaps Scenario.unticked in
  selected <$> vertex_overlap_list (context o) = [true; true]
  /\ reports o = [(INFO, "Selected all 2 overlap items")].
Proof. vm_compute. auto. Qed.
